(** * SheetSync backend: ingestion pipeline

    A shallow embedding of [main.py] (row mapper, row fingerprint, audit
    log, retrying CRM transport, upsert, ingestion endpoint) and of
    [watch_excel.py] (stable reader, change debouncer), followed by the
    properties of the specification that were checked against them.

    Modelling conventions.
    - A Python [str] is a Rocq [string] holding its UTF-8 bytes, so
      [encode("utf-8")] is the identity on the bytes.  Case folding,
      whitespace and alphanumeric classification are those of Python on
      the ASCII range; bytes above 127 are left alone by [lower] and are
      neither whitespace nor alphanumeric.
    - A [dict] is an association list in insertion order.
    - A function that can raise returns a [result]; state (audit log,
      HTTP traffic, debounce timestamp) is passed explicitly.
    - Seconds are exact rationals ([Q]): the delays and the debounce
      period of the sources are dyadic, rounding is not modelled. *)

From Stdlib Require Import ZArith List String Ascii Bool Lia QArith Lqa.
Import ListNotations.

Set Implicit Arguments.
Close Scope Q_scope.

(* ===================================================================== *)
(** ** Python text primitives *)
(* ===================================================================== *)

Module Text.

Local Open Scope string_scope.

Definition code (c : ascii) : N := N_of_ascii c.

(** [str.isspace] on the ASCII range: TAB..CR, FS..US and the blank. *)
Definition isspace (c : ascii) : bool :=
  let n := code c in
  ((9 <=? n) && (n <=? 13) || (28 <=? n) && (n <=? 32))%N.

Definition isupper (c : ascii) : bool :=
  let n := code c in ((65 <=? n) && (n <=? 90))%N.

(** [str.isalnum] on the ASCII range. *)
Definition isalnum (c : ascii) : bool :=
  let n := code c in
  ((48 <=? n) && (n <=? 57) || (65 <=? n) && (n <=? 90)
   || (97 <=? n) && (n <=? 122))%N.

Definition lower_char (c : ascii) : ascii :=
  if isupper c then ascii_of_N (code c + 32) else c.

(** [s.lower()] *)
Fixpoint lower (s : string) : string :=
  match s with
  | EmptyString => EmptyString
  | String c r => String (lower_char c) (lower r)
  end.

Fixpoint lstrip (s : string) : string :=
  match s with
  | EmptyString => EmptyString
  | String c r => if isspace c then lstrip r else s
  end.

Fixpoint rstrip (s : string) : string :=
  match s with
  | EmptyString => EmptyString
  | String c r =>
      match rstrip r with
      | EmptyString => if isspace c then EmptyString else String c EmptyString
      | r' => String c r'
      end
  end.

(** [s.strip()] *)
Definition strip (s : string) : string := rstrip (lstrip s).

(** ["".join(ch for ch in s if ch.isalnum())] *)
Fixpoint keep_alnum (s : string) : string :=
  match s with
  | EmptyString => EmptyString
  | String c r => if isalnum c then String c (keep_alnum r) else keep_alnum r
  end.

(** [sep.join(parts)] *)
Fixpoint join (sep : string) (parts : list string) : string :=
  match parts with
  | [] => ""
  | [p] => p
  | p :: rest => p ++ sep ++ join sep rest
  end.

(** Truthiness of a [str]. *)
Definition nonempty (s : string) : bool :=
  match s with EmptyString => false | _ => true end.

(** The bytes of [s.encode("utf-8")]. *)
Definition encode (s : string) : list Z :=
  map (fun c => Z.of_N (code c)) (list_ascii_of_string s).

End Text.

(* ===================================================================== *)
(** ** hashlib.sha256 (FIPS 180-4) *)
(* ===================================================================== *)

Module Sha256.

Local Open Scope Z_scope.

Definition wrap (x : Z) : Z := x mod 2 ^ 32.
Definition add32 (x y : Z) : Z := wrap (x + y).
Definition rotr (n x : Z) : Z :=
  Z.lor (Z.shiftr x n) (wrap (Z.shiftl x (32 - n))).
Definition not32 (x : Z) : Z := Z.lxor x (2 ^ 32 - 1).

Definition ch (x y z : Z) : Z := Z.lxor (Z.land x y) (Z.land (not32 x) z).
Definition maj (x y z : Z) : Z :=
  Z.lxor (Z.lxor (Z.land x y) (Z.land x z)) (Z.land y z).
Definition bsig0 (x : Z) : Z := Z.lxor (Z.lxor (rotr 2 x) (rotr 13 x)) (rotr 22 x).
Definition bsig1 (x : Z) : Z := Z.lxor (Z.lxor (rotr 6 x) (rotr 11 x)) (rotr 25 x).
Definition ssig0 (x : Z) : Z := Z.lxor (Z.lxor (rotr 7 x) (rotr 18 x)) (Z.shiftr x 3).
Definition ssig1 (x : Z) : Z := Z.lxor (Z.lxor (rotr 17 x) (rotr 19 x)) (Z.shiftr x 10).

(** The constants are the leading 32 fractional bits of the square
    roots (initial state) and cube roots (round constants) of the first
    primes; they are computed here rather than tabulated. *)
Definition first_primes : list Z :=
  [2; 3; 5; 7; 11; 13; 17; 19; 23; 29; 31; 37; 41; 43; 47; 53;
   59; 61; 67; 71; 73; 79; 83; 89; 97; 101; 103; 107; 109; 113; 127; 131;
   137; 139; 149; 151; 157; 163; 167; 173; 179; 181; 191; 193; 197; 199;
   211; 223; 227; 229; 233; 239; 241; 251; 257; 263; 269; 271; 277; 281;
   283; 293; 307; 311].

(** Largest [r < 2^bits] extending [acc] with [r^3 <= x]. *)
Fixpoint cube_root_from (bits : nat) (acc x : Z) : Z :=
  match bits with
  | O => acc
  | S b =>
      let cand := acc + 2 ^ Z.of_nat b in
      cube_root_from b (if cand * cand * cand <=? x then cand else acc) x
  end.

Definition frac_sqrt32 (p : Z) : Z := wrap (Z.sqrt (p * 2 ^ 64)).
Definition frac_cbrt32 (p : Z) : Z := wrap (cube_root_from 36 0 (p * 2 ^ 96)).

Definition H_init : list Z :=
  Eval vm_compute in map frac_sqrt32 (firstn 8 first_primes).
Definition K : list Z :=
  Eval vm_compute in map frac_cbrt32 first_primes.

(** Padding: a 1 bit, zeros up to 56 mod 64 bytes, the bit length on
    eight big-endian bytes. *)
Definition be_bytes (n : nat) (x : Z) : list Z :=
  map (fun i => Z.shiftr x (8 * Z.of_nat i) mod 256) (rev (seq 0 n)).

Definition pad (msg : list Z) : list Z :=
  let len := Z.of_nat (List.length msg) in
  let zeros := Z.to_nat ((55 - len) mod 64) in
  msg ++ [128] ++ repeat 0 zeros ++ be_bytes 8 (8 * len).

Definition be_word (bs : list Z) : Z :=
  fold_left (fun acc b => acc * 256 + b) bs 0.

(** Cut a list into groups of [n] elements ([fuel] bounds the number of
    groups; the length of the list is always enough). *)
Fixpoint chunks (A : Type) (fuel n : nat) (l : list A) : list (list A) :=
  match fuel, l with
  | O, _ | _, [] => []
  | S f, _ => firstn n l :: chunks f n (skipn n l)
  end.

(** Message schedule: sixteen block words extended to sixty-four. *)
Fixpoint extend (steps : nat) (w : list Z) : list Z :=
  match steps with
  | O => w
  | S s =>
      let t := List.length w in
      let at_back k := nth (t - k) w 0 in
      extend s (w ++ [add32 (add32 (ssig1 (at_back 2%nat)) (at_back 7%nat))
                            (add32 (ssig0 (at_back 15%nat)) (at_back 16%nat))])
  end.

Definition schedule (block : list Z) : list Z :=
  extend 48 (map be_word (chunks 16 4 block)).

Record regs := Regs { ra : Z; rb : Z; rc : Z; rd : Z; re : Z; rf : Z; rg : Z; rh : Z }.

Definition round (s : regs) (kw : Z * Z) : regs :=
  let t1 := add32 (add32 (add32 (rh s) (bsig1 (re s))) (ch (re s) (rf s) (rg s)))
                  (add32 (fst kw) (snd kw)) in
  let t2 := add32 (bsig0 (ra s)) (maj (ra s) (rb s) (rc s)) in
  Regs (add32 t1 t2) (ra s) (rb s) (rc s) (add32 (rd s) t1) (re s) (rf s) (rg s).

Definition regs_of (l : list Z) : regs :=
  Regs (nth 0 l 0) (nth 1 l 0) (nth 2 l 0) (nth 3 l 0)
       (nth 4 l 0) (nth 5 l 0) (nth 6 l 0) (nth 7 l 0).

Definition words_of (s : regs) : list Z :=
  [ra s; rb s; rc s; rd s; re s; rf s; rg s; rh s].

Definition compress (h : list Z) (block : list Z) : list Z :=
  let out := fold_left round (combine K (schedule block)) (regs_of h) in
  map (fun p => add32 (fst p) (snd p)) (combine h (words_of out)).

Definition digest (msg : list Z) : list Z :=
  let padded := pad msg in
  let h := fold_left compress (chunks (List.length padded) 64 padded) H_init in
  flat_map (be_bytes 4) h.

Definition hex_digit (d : Z) : ascii :=
  ascii_of_N (Z.to_N (if d <? 10 then 48 + d else 87 + d)).

Fixpoint hex (bs : list Z) : string :=
  match bs with
  | [] => EmptyString
  | b :: r => String (hex_digit (b / 16)) (String (hex_digit (b mod 16)) (hex r))
  end.

(** The hash object: the bytes fed so far. *)
Definition hasher := list Z.
Definition sha256 : hasher := [].
Definition update (h : hasher) (data : list Z) : hasher := h ++ data.
Definition hexdigest (h : hasher) : string := hex (digest h).

End Sha256.

(* ===================================================================== *)
(** ** Results, exceptions and dictionaries *)
(* ===================================================================== *)

Module Py.

(** Outcome of a call: a value, or an exception of type [E]. *)
Inductive result (E A : Type) : Type :=
| Return (a : A)
| Raise (e : E).
Arguments Return {E A} a.
Arguments Raise {E A} e.

(** A [dict] with [str] keys, in insertion order. *)
Definition dict (V : Type) : Type := list (string * V).

(** [d.get(k)] *)
Fixpoint get (V : Type) (k : string) (d : dict V) : option V :=
  match d with
  | [] => None
  | (k', v) :: r => if String.eqb k k' then Some v else get k r
  end.

(** [d[k] = v]: overwrite in place, or append a new key. *)
Fixpoint set (V : Type) (k : string) (v : V) (d : dict V) : dict V :=
  match d with
  | [] => [(k, v)]
  | (k', v') :: r =>
      if String.eqb k k' then (k, v) :: r else (k', v') :: set k v r
  end.

(** [k in d] *)
Definition has (V : Type) (k : string) (d : dict V) : bool :=
  match get k d with Some _ => true | None => false end.

(** [x in l] *)
Definition mem (x : string) (l : list string) : bool :=
  existsb (String.eqb x) l.

(** [l.index(x)], [None] standing for the ValueError. *)
Fixpoint index (x : string) (l : list string) : option nat :=
  match l with
  | [] => None
  | y :: r => if String.eqb x y then Some O else option_map S (index x r)
  end.

End Py.

(* ===================================================================== *)
(** ** main.py *)
(* ===================================================================== *)

Module Main.

Import Py.
Local Open Scope string_scope.

Definition HUBSPOT_API_BASE : string := "https://api.hubapi.com".

(** *** Row fingerprint *)

(** [str(x)] of an [Optional[str]] cell. *)
Definition str (x : option string) : string :=
  match x with None => "None" | Some s => s end.

Definition row_hash (headers : list string) (values : list (option string)) : string :=
  let h := Sha256.sha256 in
  let h := Sha256.update h (Text.encode (Text.join "|" headers)) in
  let h := Sha256.update h (Text.encode (Text.join "|" (map str values))) in
  Sha256.hexdigest h.

(** *** Row mapper *)

Definition contact : Type := dict string.

Definition HEADER_ALIASES : dict (list string) :=
  [ ("email", ["email"; "e-mail"; "mail"]);
    ("firstname", ["first name"; "firstname"; "first_name"; "given name"]);
    ("lastname", ["last name"; "lastname"; "last_name"; "surname"]);
    ("phone", ["phone"; "phone number"; "mobile"; "mobile phone"]);
    ("company", ["company"; "account"; "organisation"; "organization"]) ].

Definition _norm (s : string) : string :=
  Text.keep_alnum (Text.lower (Text.strip s)).

Definition blank_contact : contact :=
  [("email", ""); ("firstname", ""); ("lastname", ""); ("phone", ""); ("company", "")].

(** [if idx < len(vals): contact[prop] = vals[idx]] *)
Definition assign_at (vals : list string) (idx : nat) (prop : string) (c : contact) : contact :=
  match nth_error vals idx with
  | Some v => set prop v c
  | None => c
  end.

(** Body of the loop over [lower_map.items()]. *)
Definition explicit_step (hnorm vals : list string) (c : contact) (item : string * string) : contact :=
  let (prop, wanted) := item in
  match index wanted hnorm with
  | Some idx => assign_at vals idx prop c
  | None => c
  end.

(** The inner [for i, h in enumerate(hnorm)] loop with its [break]. *)
Fixpoint scan_headers (aliases : list string) (vals : list string) (prop : string)
         (i : nat) (hnorm : list string) (c : contact) : contact :=
  match hnorm with
  | [] => c
  | h :: rest =>
      if mem h (map _norm aliases) then assign_at vals i prop c
      else scan_headers aliases vals prop (S i) rest c
  end.

Definition heuristic_step (hnorm vals : list string) (c : contact)
           (item : string * list string) : contact :=
  let (prop, aliases) := item in scan_headers aliases vals prop 0 hnorm c.

(** [if mapping:] is false for [None] and for the empty dict. *)
Definition truthy_mapping (mapping : option (dict string)) : bool :=
  match mapping with
  | Some (_ :: _) => true
  | _ => false
  end.

(** ["" if v is None else str(v)] *)
Definition text_of_cell (v : option string) : string :=
  match v with None => "" | Some s => s end.

Definition map_row_to_contact (headers : list string) (values : list (option string))
           (mapping : option (dict string)) : contact :=
  let vals := map text_of_cell values in
  let contact := blank_contact in
  let contact :=
    if truthy_mapping mapping then
      let lower_map :=
        map (fun kv => (fst kv, _norm (snd kv)))
            (filter (fun kv => has (fst kv) contact)
                    (match mapping with Some m => m | None => [] end)) in
      let hnorm := map _norm headers in
      fold_left (explicit_step hnorm vals) lower_map contact
    else
      let hnorm := map _norm headers in
      fold_left (heuristic_step hnorm vals) HEADER_ALIASES contact in
  (* contact["email"]: the key is there from the start and never removed *)
  let email := match get "email" contact with Some e => e | None => "" end in
  let contact := set "email" (Text.lower (Text.strip email)) contact in
  filter (fun kv => Text.nonempty (snd kv)) contact.

(** *** Exceptions, audit log, HTTP traffic *)

Inductive exn : Type :=
| HTTPException (status_code : Z) (detail : string)
| RequestException      (* [requests.request] raised: timeout, connection *)
| JSONDecodeError       (* [r.json()] raised *)
| UnboundLocalError.

(** Text handed to [log_event] as [detail]; the column keeps the first
    2000 characters of its rendering. *)
Inductive detail_text : Type :=
| Literal (s : string)
| StrOf (c : contact)   (* [str(contact)] *)
| ReprOf (e : exn).     (* [repr(e)] *)

(** A row of the [events] table.  The [id] column is the position in the
    log, the [ts] column is left out. *)
Record event : Type := Event {
  spreadsheet_id : string;
  sheet_name : string;
  row_index : Z;
  ev_row_hash : string;
  hubspot_id : string;
  action : string;
  detail : detail_text
}.

Inductive json_value : Type :=
| SearchByEmail (email : string)
| Properties (props : contact).

Record kwargs : Type := Kw { kw_headers : dict string; kw_json : json_value }.

Inductive effect : Type :=
| Request (method url : string) (kw : kwargs)
| Sleep (secs : Q).

(** What the code reads of a decoded body: the ["id"] of each entry of
    ["results"] (empty when the key is absent) and the top-level ["id"]. *)
Record json_body : Type := Body { results : list (option string); id : option string }.

Record response : Type := Response {
  status_code : Z;
  text : string;
  json : option json_body      (* [None]: [r.json()] raises *)
}.

Inductive reply : Type :=
| Replied (r : response)
| NoReply.

(** The CRM and the network: any function of the traffic so far and of
    the request. *)
Definition upstream : Type := list effect -> string -> string -> kwargs -> reply.

Record world : Type := World { events : list event; traffic : list effect }.

Record config : Type := Config { BRIDGE_SECRET : string; HUBSPOT_ACCESS_TOKEN : string }.

(** Computations over the world that may raise. *)
Definition M (A : Type) : Type := world -> result exn A * world.

Definition ret (A : Type) (a : A) : M A := fun w => (Return a, w).
Definition raise (A : Type) (e : exn) : M A := fun w => (Raise e, w).
Arguments raise {A} e.
Definition bind (A B : Type) (c : M A) (k : A -> M B) : M B :=
  fun w => match c w with
           | (Return a, w') => k a w'
           | (Raise e, w') => (Raise e, w')
           end.
(** [try: body / except Exception as e: handler e] *)
Definition try_except (A : Type) (body : M A) (handler : exn -> M A) : M A :=
  fun w => match body w with
           | (Return a, w') => (Return a, w')
           | (Raise e, w') => handler e w'
           end.

Notation "x <- c ;; k" := (bind c (fun x => k))
  (at level 61, c at next level, right associativity).
Notation "c ;;; k" := (bind c (fun _ => k))
  (at level 61, right associativity).

Definition event_matches (spreadsheet_id' sheet_name' : string) (row_index' : Z)
           (r_hash : string) (ev : event) : bool :=
  String.eqb (spreadsheet_id ev) spreadsheet_id'
  && String.eqb (sheet_name ev) sheet_name'
  && Z.eqb (row_index ev) row_index'
  && String.eqb (ev_row_hash ev) r_hash.

Definition already_processed (spreadsheet_id' sheet_name' : string) (row_index' : Z)
           (r_hash : string) : M bool :=
  fun w => (Return (existsb (event_matches spreadsheet_id' sheet_name' row_index' r_hash)
                            (events w)), w).

Definition log_event (spreadsheet_id' sheet_name' : string) (row_index' : Z)
           (r_hash action' : string) (hubspot_id' : option string)
           (detail' : detail_text) : M unit :=
  fun w =>
    let ev := Event spreadsheet_id' sheet_name' row_index' r_hash
                    (match hubspot_id' with Some i => i | None => "" end)
                    action' detail' in
    (Return tt, World (events w ++ [ev]) (traffic w)).

(** *** HubSpot client with retries *)

(** [min(a, b)] *)
Definition py_min (a b : Q) : Q := if Qle_bool a b then a else b.

(** [min(0.5 * (2 ** attempt), 6)] *)
Definition backoff (attempt : nat) : Q :=
  Qred (py_min ((1 # 2) * inject_Z (2 ^ Z.of_nat attempt)) (6 # 1)).

Definition retryable (r : response) : bool :=
  negb ((status_code r <? 500)%Z && negb (status_code r =? 429)%Z).

Section WithEnvironment.

Variable cfg : config.
Variable crm : upstream.

Definition _hs_headers : M (dict string) :=
  if Text.nonempty (HUBSPOT_ACCESS_TOKEN cfg) then
    ret [("Authorization", "Bearer " ++ HUBSPOT_ACCESS_TOKEN cfg);
         ("Content-Type", "application/json")]
  else raise (HTTPException 400 "HUBSPOT_ACCESS_TOKEN missing").

(** [requests.request(method, url, timeout=30, **kw)] *)
Definition request (method url : string) (kw : kwargs) : M response :=
  fun w =>
    let w' := World (events w) (traffic w ++ [Request method url kw]) in
    match crm (traffic w) method url kw with
    | Replied r => (Return r, w')
    | NoReply => (Raise RequestException, w')
    end.

(** [time.sleep(secs)] *)
Definition sleep (secs : Q) : M unit :=
  fun w => (Return tt, World (events w) (traffic w ++ [Sleep secs])).

(** The [for attempt in range(5)] loop; [r] is the variable of that
    name, unbound before the first pass. *)
Fixpoint retry_loop (attempts : list nat) (r : option response)
         (method url : string) (kw : kwargs) : M response :=
  match attempts with
  | [] => match r with Some r => ret r | None => raise UnboundLocalError end
  | attempt :: rest =>
      r <- request method url kw ;;
      if retryable r then
        sleep (backoff attempt) ;;; retry_loop rest (Some r) method url kw
      else ret r
  end.

Definition _request_retry (method url : string) (kw : kwargs) : M response :=
  retry_loop (seq 0 5) None method url kw.

Definition hubspot_find_contact_by_email (email : string) : M (option string) :=
  let url := HUBSPOT_API_BASE ++ "/crm/v3/objects/contacts/search" in
  let payload := SearchByEmail email in
  hs <- _hs_headers ;;
  r <- _request_retry "POST" url (Kw hs payload) ;;
  if (400 <=? status_code r)%Z then
    raise (HTTPException 502 ("HubSpot search error: " ++ text r))
  else
    match json r with
    | None => raise JSONDecodeError
    | Some b => ret (match results b with [] => None | first :: _ => first end)
    end.

Definition hubspot_create_contact (props : contact) : M string :=
  let url := HUBSPOT_API_BASE ++ "/crm/v3/objects/contacts" in
  hs <- _hs_headers ;;
  r <- _request_retry "POST" url (Kw hs (Properties props)) ;;
  if (400 <=? status_code r)%Z then
    raise (HTTPException 502 ("HubSpot create error: " ++ text r))
  else
    match json r with
    | None => raise JSONDecodeError
    | Some b => ret (match id b with Some i => i | None => "" end)
    end.

Definition hubspot_update_contact (contact_id : string) (props : contact) : M unit :=
  let url := HUBSPOT_API_BASE ++ "/crm/v3/objects/contacts/" ++ contact_id in
  hs <- _hs_headers ;;
  r <- _request_retry "PATCH" url (Kw hs (Properties props)) ;;
  if (400 <=? status_code r)%Z then
    raise (HTTPException 502 ("HubSpot update error: " ++ text r))
  else ret tt.

Inductive upsert_result : Type :=
| Skipped (reason : string)   (* {"skipped": True, "reason": ...} *)
| Updated (id : string)       (* {"updated": True, "id": ...} *)
| Created (id : string).      (* {"created": True, "id": ...} *)

Definition upsert_contact_to_hubspot (contact : contact) : M upsert_result :=
  let email :=
    Text.lower (Text.strip (match get "email" contact with Some e => e | None => "" end)) in
  if negb (Text.nonempty email) then ret (Skipped "missing email")
  else
    let props := filter (fun kv => Text.nonempty (snd kv)) contact in
    cid <- hubspot_find_contact_by_email email ;;
    match cid with
    | Some (String _ _ as cid) =>
        hubspot_update_contact cid props ;;; ret (Updated cid)
    | _ =>
        new_id <- hubspot_create_contact props ;;
        ret (Created new_id)
    end.

(** *** Single-row ingest *)

Record IngestRowPayload : Type := Payload {
  spreadsheetId : string;
  sheetName : string;
  rowIndex : Z;
  headers : option (list string);
  values : list (option string);
  mapping : option (dict string)
}.

Inductive ingest_reply : Type :=
| IsDuplicate                      (* {"ok": True, "duplicate": True} *)
| IsSkipped (reason : string)      (* {"ok": True, "skipped": True, "reason": ...} *)
| Upserted (res : upsert_result).  (* {"ok": True, "upsert": res} *)

Definition secret_matches (x_bridge_secret : option string) : bool :=
  match x_bridge_secret with
  | Some s => String.eqb s (BRIDGE_SECRET cfg)
  | None => false
  end.

(** ["updated" if res.get("updated") else "created" if res.get("created") else "unknown"] *)
Definition action_of (res : upsert_result) : string :=
  match res with
  | Updated _ => "updated"
  | Created _ => "created"
  | Skipped _ => "unknown"
  end.

(** [res.get("id", "")] *)
Definition id_of (res : upsert_result) : string :=
  match res with
  | Updated i | Created i => i
  | Skipped _ => ""
  end.

Definition ingest_rows (payload : IngestRowPayload) (x_bridge_secret : option string)
  : M ingest_reply :=
  if negb (secret_matches x_bridge_secret) then
    raise (HTTPException 401 "Invalid secret")
  else
    let headers := match headers payload with Some h => h | None => [] end in
    let values := values payload in
    let r_hash := row_hash headers values in
    let log := log_event (spreadsheetId payload) (sheetName payload)
                         (rowIndex payload) r_hash in
    seen <- already_processed (spreadsheetId payload) (sheetName payload)
                              (rowIndex payload) r_hash ;;
    if (seen : bool) then
      log "duplicate" (Some "") (Literal "") ;;; ret IsDuplicate
    else
      try_except
        (let contact := map_row_to_contact headers values (mapping payload) in
         if negb (match get "email" contact with Some e => Text.nonempty e | None => false end)
         then
           log "skipped" (Some "") (Literal "missing email") ;;;
           ret (IsSkipped "missing email")
         else
           res <- upsert_contact_to_hubspot contact ;;
           log (action_of res) (Some (id_of res)) (StrOf contact) ;;;
           ret (Upserted res))
        (fun e => log "error" (Some "") (ReprOf e) ;;; raise e).

End WithEnvironment.

(** *** Recent events *)

(** A row of [/logs/recent]: the selected columns, [ts] left out as in
    [event]. *)
Record log_row : Type := LogRow {
  lr_spreadsheet_id : string;
  lr_sheet_name : string;
  lr_row_index : Z;
  lr_hubspot_id : string;
  lr_action : string;
  lr_detail : detail_text
}.

Definition log_row_of (ev : event) : log_row :=
  LogRow (spreadsheet_id ev) (sheet_name ev) (row_index ev)
         (hubspot_id ev) (action ev) (detail ev).

(** [ORDER BY id DESC LIMIT ?]; SQLite reads a negative limit as no
    limit.  The value is the list under ["events"]. *)
Definition logs_recent (limit : Z) : M (list log_row) :=
  fun w =>
    let newest_first := rev (events w) in
    let rows := if (limit <? 0)%Z then newest_first
                else firstn (Z.to_nat limit) newest_first in
    (Return (map log_row_of rows), w).

End Main.

(* ===================================================================== *)
(** ** watch_excel.py *)
(* ===================================================================== *)

Module Watch.

Import Py.
Local Open Scope string_scope.

(** *** Paths *)

Record Path : Type := MkPath { parent : string; name : string }.

(** [s[s.rfind("."):]] when [s] has a dot. *)
Fixpoint from_last_dot (s : string) : option string :=
  match s with
  | EmptyString => None
  | String c r =>
      match from_last_dot r with
      | Some t => Some t
      | None => if Ascii.eqb c "."%char then Some s else None
      end
  end.

(** [PurePath.suffix]: the part from the last dot of the name, when that
    dot is neither the first nor the last character. *)
Definition suffix (p : Path) : string :=
  match name p with
  | EmptyString => ""
  | String _ r =>
      match from_last_dot r with
      | Some t => if Nat.ltb 1 (String.length t) then t else ""
      | None => ""
      end
  end.

(** [PurePath.stem] *)
Definition stem (p : Path) : string :=
  substring 0 (String.length (name p) - String.length (suffix p)) (name p).

Definition with_name (p : Path) (n : string) : Path := MkPath (parent p) n.

(** *** Tables, operations on the outside world *)

(** A parsed table; a cell is [None] for NaN, else its [str] form. *)
Record DataFrame : Type := Frame { columns : list string; rows : list (list (option string)) }.

Definition empty (df : DataFrame) : bool :=
  match columns df, rows df with
  | _ :: _, _ :: _ => false
  | _, _ => true
  end.

Record payload : Type := MkPayload {
  spreadsheetId : string;
  sheetName : string;
  rowIndex : Z;
  headers : list string;
  values : list string
}.

Inductive csv_mode : Type :=
| Utf8Ignore      (* [encoding="utf-8", errors="ignore"] *)
| PythonEngine.   (* [engine="python"] *)

Inductive message : Type :=
| ChangeDetected (p : Path)
| CouldNotRead
| UnsupportedType (suf : string)
| NoRows
| Posted (url : string) (status : Z)
| ErrorBody (text : string)
| ServerJson
| ServerText (text : string)
| RequestFailed.

Inductive op : Type :=
| Stat (p : Path)
| CopyFile (src dst : Path)
| ReadExcel (p : Path)
| ReadCsv (p : Path) (mode : csv_mode)
| Unlink (p : Path)
| Post (url : string) (body : payload)
| Sleep (secs : Q)
| Print (m : message).

Inductive post_reply : Type :=
| PostReplied (status : Z) (text : string) (json_ok : bool)
| PostFailed.

(** The file system, pandas and the network; each answer may depend on
    everything done so far. *)
Record environment : Type := Env {
  stat_size : list op -> Path -> option Z;           (* [None]: FileNotFoundError *)
  copyfile : list op -> Path -> Path -> bool;        (* [false]: raises *)
  read_excel : list op -> Path -> option DataFrame;  (* [None]: raises *)
  read_csv : list op -> Path -> csv_mode -> option DataFrame;
  unlink : list op -> Path -> bool;                  (* [false]: raises *)
  post : list op -> string -> payload -> post_reply
}.

Inductive exn : Type :=
| DecodeError (p : Path).   (* raised by [pd.read_excel] / [pd.read_csv] *)

Record state : Type := State { _last_event : Q; trace : list op }.

Definition W (A : Type) : Type := state -> result exn A * state.

Definition ret (A : Type) (a : A) : W A := fun s => (Return a, s).
Definition raise (A : Type) (e : exn) : W A := fun s => (Raise e, s).
Arguments raise {A} e.
Definition bind (A B : Type) (c : W A) (k : A -> W B) : W B :=
  fun s => match c s with
           | (Return a, s') => k a s'
           | (Raise e, s') => (Raise e, s')
           end.
Definition try_except (A : Type) (body : W A) (handler : exn -> W A) : W A :=
  fun s => match body s with
           | (Return a, s') => (Return a, s')
           | (Raise e, s') => handler e s'
           end.
(** [try: body / finally: cleanup], for a [cleanup] that does not raise. *)
Definition try_finally (A : Type) (body : W A) (cleanup : W unit) : W A :=
  fun s => let (r, s') := body s in (r, snd (cleanup s')).

Notation "x <- c ;; k" := (bind c (fun x => k))
  (at level 61, c at next level, right associativity).
Notation "c ;;; k" := (bind c (fun _ => k))
  (at level 61, right associativity).

Definition emit (o : op) : W unit :=
  fun s => (Return tt, State (_last_event s) (trace s ++ [o])).

(** Run an operation whose answer [ask] computes from the trace so far. *)
Definition perform (A : Type) (ask : list op -> A) (o : op) : W A :=
  fun s => (Return (ask (trace s)), State (_last_event s) (trace s ++ [o])).

Definition sleep (secs : Q) : W unit := emit (Sleep secs).
Definition print (m : message) : W unit := emit (Print m).

(** *** Tuning *)

Definition API_URL : string := "http://127.0.0.1:8000/ingest/rows".
Definition WATCH_FILE : Path := MkPath "C:\Users\toufi\Downloads" "sample_contacts.csv".
Definition READ_RETRIES : nat := 40.
Definition RETRY_DELAY_SECS : Q := 3 # 4.
Definition DEBOUNCE_SECS : Q := 1.
Definition TARGET_NAME : string := name WATCH_FILE.

(** [a < b] *)
Definition Qltb (a b : Q) : bool := negb (Qle_bool b a).

Section WithEnvironment.

Variable env : environment.

(** The loop of [wait_until_stable] with its two counters. *)
Fixpoint stable_loop (polls : nat) (path : Path) (checks : Z) (interval : Q)
         (last_size stable : Z) : W bool :=
  match polls with
  | O => ret false
  | S more =>
      size <- perform (fun t => stat_size env t path) (Stat path) ;;
      match size with
      | None => sleep interval ;;; stable_loop more path checks interval last_size stable
      | Some size =>
          if (size =? last_size)%Z && (0 <? size)%Z then
            let stable := (stable + 1)%Z in
            if (checks <=? stable)%Z then ret true
            else sleep interval ;;; stable_loop more path checks interval last_size stable
          else
            sleep interval ;;; stable_loop more path checks interval size 0%Z
      end
  end.

Definition wait_until_stable (path : Path) : W bool :=
  stable_loop READ_RETRIES path 3%Z (3 # 10) (-1)%Z 0%Z.

Fixpoint copy_loop (tries : nat) (path temp_path : Path) : W (option Path) :=
  match tries with
  | O => ret None
  | S more =>
      ok <- perform (fun t => copyfile env t path temp_path) (CopyFile path temp_path) ;;
      if (ok : bool) then ret (Some temp_path)
      else sleep RETRY_DELAY_SECS ;;; copy_loop more path temp_path
  end.

Definition copy_to_temp (path : Path) : W (option Path) :=
  ready <- wait_until_stable path ;;
  if negb ready then ret None
  else
    let temp_path := with_name path (stem path ++ ".tmpcopy" ++ suffix path) in
    copy_loop READ_RETRIES path temp_path.

Definition pd_read_excel (p : Path) : W DataFrame :=
  r <- perform (fun t => read_excel env t p) (ReadExcel p) ;;
  match r with Some df => ret df | None => raise (DecodeError p) end.

Definition pd_read_csv (p : Path) (mode : csv_mode) : W DataFrame :=
  r <- perform (fun t => read_csv env t p mode) (ReadCsv p mode) ;;
  match r with Some df => ret df | None => raise (DecodeError p) end.

(** [try: tmp.unlink(missing_ok=True) / except Exception: pass] *)
Definition unlink_quietly (p : Path) : W unit :=
  _ <- perform (fun t => unlink env t p) (Unlink p) ;; ret tt.

Definition read_table_any (path : Path) : W (option DataFrame) :=
  tmp <- copy_to_temp path ;;
  match tmp with
  | None => ret None
  | Some tmp =>
      try_finally
        (let suf := Text.lower (suffix tmp) in
         if mem suf [".xlsx"; ".xls"] then
           df <- pd_read_excel tmp ;; ret (Some df)
         else if String.eqb suf ".csv" then
           df <- try_except (pd_read_csv tmp Utf8Ignore)
                            (fun _ => pd_read_csv tmp PythonEngine) ;;
           ret (Some df)
         else
           print (UnsupportedType suf) ;;; ret None)
        (unlink_quietly tmp)
  end.

Definition send_first_row (df : DataFrame) : W unit :=
  if empty df then print NoRows
  else
    let headers := columns df in
    let row := map (fun c => match c with None => "" | Some s => s end)
                   (hd [] (rows df)) in
    let payload := MkPayload "excel-desktop" "Sheet1" 0 headers row in
    r <- perform (fun t => post env t API_URL payload) (Post API_URL payload) ;;
    match r with
    | PostFailed => print RequestFailed
    | PostReplied status text json_ok =>
        print (Posted API_URL status) ;;;
        if (400 <=? status)%Z then print (ErrorBody (substring 0 500 text))
        else if json_ok then print ServerJson
        else print (ServerText (substring 0 200 text))
    end.

(** [now] is the value [time.monotonic()] returns in this call. *)
Definition handle_change (now : Q) (path : Path) : W unit :=
  fun s =>
    if Qltb (now - _last_event s) DEBOUNCE_SECS then (Return tt, s)
    else
      (print (ChangeDetected path) ;;;
       df <- read_table_any path ;;
       match df with
       | None => print CouldNotRead
       | Some df => send_first_row df
       end) (State now (trace s)).

(** [FileHandler]: the three callbacks compare the last component of the
    event's path with the name of the watched file. *)
Record FileSystemEvent : Type := FsEvent {
  is_directory : bool;
  src_path : Path;
  dest_path : option Path      (* [None]: the event has no [dest_path] *)
}.

Definition on_modified (now : Q) (event : FileSystemEvent) : W unit :=
  if negb (is_directory event) && String.eqb (name (src_path event)) TARGET_NAME
  then handle_change now WATCH_FILE else ret tt.

Definition on_created (now : Q) (event : FileSystemEvent) : W unit :=
  if negb (is_directory event) && String.eqb (name (src_path event)) TARGET_NAME
  then handle_change now WATCH_FILE else ret tt.

Definition on_moved (now : Q) (event : FileSystemEvent) : W unit :=
  let dest := match dest_path event with Some d => d | None => src_path event end in
  if negb (is_directory event) && String.eqb (name dest) TARGET_NAME
  then handle_change now WATCH_FILE else ret tt.

End WithEnvironment.

End Watch.

(* ===================================================================== *)
(** * Vocabulary of the properties *)
(* ===================================================================== *)

Module Spec.

Import Py.
Local Open Scope string_scope.

(** A string that does not begin with whitespace. *)
Definition left_clean (s : string) : Prop :=
  match s with EmptyString => True | String c _ => Text.isspace c = false end.

(** The text a row is hashed from. *)
Definition row_text (headers : list string) (values : list (option string)) : string :=
  Text.join "|" headers ++ Text.join "|" (map Main.str values).

(** How the mapper stores a resolved value under key [k]. *)
Definition stored (k raw : string) : string :=
  if String.eqb k "email" then Text.lower (Text.strip raw) else raw.

(** [raw] is the cell under the header that the explicit mapping [m]
    names for field [k]: the first header equal to it after
    normalisation. *)
Definition explicit_source (m : dict string) (headers vals : list string)
           (k raw : string) : Prop :=
  exists src i,
    In (k, src) m
    /\ index (Main._norm src) (map Main._norm headers) = Some i
    /\ nth_error vals i = Some raw.

(** The [lower_map] that the mapper derives from an explicit mapping. *)
Definition lower_map (m : dict string) : dict string :=
  map (fun kv => (fst kv, Main._norm (snd kv)))
      (filter (fun kv => has (fst kv) Main.blank_contact) m).

(** Invariant of the loop over an explicit mapping: the five keys, each
    blank or filled from the header the mapping names. *)
Definition explicit_inv (m : dict string) (headers vals : list string)
           (c : Main.contact) : Prop :=
  map fst c = map fst Main.blank_contact
  /\ forall k v, In (k, v) c -> v = "" \/ explicit_source m headers vals k v.

(** What survives the final filter of the mapper. *)
Definition kept (v : string) : option string :=
  if Text.nonempty v then Some v else None.

(** Header [h] is, after normalisation, one of [aliases]. *)
Definition matches (aliases : list string) (h : string) : bool :=
  mem (Main._norm h) (map Main._norm aliases).

(** [i] is the position of the first header matching [aliases]. *)
Definition first_match (aliases headers : list string) (i : nat) : Prop :=
  (exists h, nth_error headers i = Some h /\ matches aliases h = true)
  /\ forall j h, j < i -> nth_error headers j = Some h -> matches aliases h = false.

Definition no_match (aliases headers : list string) : Prop :=
  forall h, In h headers -> matches aliases h = false.

(** The same position, computed. *)
Fixpoint find_match (aliases headers : list string) : option nat :=
  match headers with
  | [] => None
  | h :: rest =>
      if matches aliases h then Some O else option_map S (find_match aliases rest)
  end.

(** The cell at the first matching header; empty when no header matches
    or the row is too short. *)
Definition heuristic_value (aliases headers vals : list string) : string :=
  match find_match aliases headers with
  | Some i => nth i vals ""
  | None => ""
  end.

(** The contact the heuristic branch builds, field by field. *)
Definition heuristic_contact (headers : list string) (values : list (option string))
  : Main.contact :=
  filter (fun kv => Text.nonempty (snd kv))
         (map (fun item =>
                 (fst item,
                  stored (fst item)
                         (heuristic_value (snd item) headers (map Main.text_of_cell values))))
              Main.HEADER_ALIASES).

(** World [w'] is [w] after some more traffic, all of it satisfying [P],
    and with the audit log untouched. *)
Definition extends (P : Main.effect -> Prop) (w w' : Main.world) : Prop :=
  Main.events w' = Main.events w
  /\ exists sent, Main.traffic w' = (Main.traffic w ++ sent)%list /\ Forall P sent.

(** Computation [c] only adds traffic satisfying [P]. *)
Definition emits (P : Main.effect -> Prop) (A : Type) (c : Main.M A) : Prop :=
  forall w, extends P w (snd (c w)).

(** Every property bag in a request is [props]. *)
Definition carries (props : Main.contact) (eff : Main.effect) : Prop :=
  forall method url hs bag,
    eff = Main.Request method url (Main.Kw hs (Main.Properties bag)) -> bag = props.

(** The event belongs to the row of payload [p]: same spreadsheet,
    sheet, row index and fingerprint. *)
Definition for_row (p : Main.IngestRowPayload) : Main.event -> bool :=
  Main.event_matches
    (Main.spreadsheetId p) (Main.sheetName p) (Main.rowIndex p)
    (Main.row_hash (match Main.headers p with Some h => h | None => [] end)
                   (Main.values p)).

(** Two submissions of the same (source, rowIndex, headers, values). *)
Definition same_submission (p1 p2 : Main.IngestRowPayload) : Prop :=
  Main.spreadsheetId p1 = Main.spreadsheetId p2
  /\ Main.sheetName p1 = Main.sheetName p2
  /\ Main.rowIndex p1 = Main.rowIndex p2
  /\ Main.headers p1 = Main.headers p2
  /\ Main.values p1 = Main.values p2.

(** The events of the row of [p] whose action is not ["duplicate"]. *)
Definition non_duplicates (p : Main.IngestRowPayload) (evs : list Main.event)
  : list Main.event :=
  filter (fun ev => for_row p ev && negb (String.eqb (Main.action ev) "duplicate")) evs.

(** The event [log_event] writes for the row of [p]. *)
Definition event_for (p : Main.IngestRowPayload) (action hubspot_id : string)
           (detail : Main.detail_text) : Main.event :=
  Main.Event (Main.spreadsheetId p) (Main.sheetName p) (Main.rowIndex p)
             (Main.row_hash (match Main.headers p with Some h => h | None => [] end)
                            (Main.values p))
             hubspot_id action detail.

(** The worlds the service can be in: it starts with an empty audit log
    and changes it through [ingest_rows] only. *)
Inductive reachable (cfg : Main.config) (crm : Main.upstream) : Main.world -> Prop :=
| reachable_start : reachable cfg crm (Main.World [] [])
| reachable_call (w : Main.world) (p : Main.IngestRowPayload) (secret : option string) :
    reachable cfg crm w ->
    reachable cfg crm (snd (Main.ingest_rows cfg crm p secret w)).

(** The number of HTTP requests in a piece of traffic. *)
Definition requests (t : list Main.effect) : nat :=
  List.length (filter (fun eff => match eff with Main.Request _ _ _ => true | _ => false end) t).

(** The sleeps of a piece of traffic, in order. *)
Definition sleeps (t : list Main.effect) : list Q :=
  flat_map (fun eff => match eff with Main.Sleep q => [q] | _ => [] end) t.

(** A watcher computation that only appends to the trace and leaves the
    debounce timestamp alone. *)
Definition grows (A : Type) (c : Watch.W A) : Prop :=
  forall s, Watch._last_event (snd (c s)) = Watch._last_event s
            /\ exists ops, Watch.trace (snd (c s)) = (Watch.trace s ++ ops)%list.

(** A run of the change handler over successive clock readings, as the
    observer thread makes it: one call after the other, ended by the first
    call that raises.  The result lists the readings of the accepted calls;
    a call counts as accepted when it did something, that is when the
    trace grew. *)
Fixpoint drive (env : Watch.environment) (path : Watch.Path) (nows : list Q)
         (s : Watch.state) : list Q * Watch.state :=
  match nows with
  | [] => ([], s)
  | now :: later =>
      let (r, s') := Watch.handle_change env now path s in
      let fired := Nat.ltb (List.length (Watch.trace s)) (List.length (Watch.trace s')) in
      match r with
      | Raise _ => (if fired then [now] else [], s')
      | Return _ =>
          let (acc, s'') := drive env path later s' in
          (if fired then now :: acc else acc, s'')
      end
  end.

(** Each time of the list is at least one debounce period after [t0]. *)
Definition after (t0 : Q) (times : list Q) : Prop :=
  Forall (fun t => (Watch.DEBOUNCE_SECS <= t - t0)%Q) times.

(** Each time of the list is at least one debounce period after every
    earlier one. *)
Fixpoint spaced (times : list Q) : Prop :=
  match times with
  | [] => True
  | t :: later => after t later /\ spaced later
  end.

(** *** Vocabulary of the further properties *)

(** Every character of [s] satisfies [P]. *)
Fixpoint all_chars (P : ascii -> bool) (s : string) : bool :=
  match s with
  | EmptyString => true
  | String c r => P c && all_chars P r
  end.

(** A digit or a lowercase ASCII letter. *)
Definition lower_alnum (c : ascii) : bool :=
  Text.isalnum c && negb (Text.isupper c).

(** One of [0-9a-f]. *)
Definition lower_hex (c : ascii) : bool :=
  let n := Text.code c in
  ((48 <=? n) && (n <=? 57) || (97 <=? n) && (n <=? 102))%N.

(** [l1] is [l2] with some elements left out. *)
Fixpoint subseq (l1 l2 : list string) : bool :=
  match l1, l2 with
  | [], _ => true
  | _ :: _, [] => false
  | x :: r1, y :: r2 => if String.eqb x y then subseq r1 r2 else subseq l1 r2
  end.

(** Computation [c] raises nothing but exceptions satisfying [P]. *)
Definition raises_only (P : Main.exn -> Prop) (A : Type) (c : Main.M A) : Prop :=
  forall w e, fst (c w) = Raise e -> P e.

(** The exceptions of the CRM client: a transport failure, an undecodable
    body, the missing token (400) and an upstream error (502). *)
Definition client_error (e : Main.exn) : Prop :=
  e = Main.RequestException
  \/ e = Main.JSONDecodeError
  \/ e = Main.HTTPException 400 "HUBSPOT_ACCESS_TOKEN missing"
  \/ exists detail, e = Main.HTTPException 502 detail.

(** The delays of the retrying transport, in order. *)
Definition backoff_schedule : list Q := map Main.backoff (seq 0 5).

(** The operations a watcher computation adds all satisfy [P]; the
    debounce timestamp is left alone. *)
Definition adds (P : Watch.op -> Prop) (A : Type) (c : Watch.W A) : Prop :=
  forall s, Watch._last_event (snd (c s)) = Watch._last_event s
            /\ exists ops, Watch.trace (snd (c s)) = (Watch.trace s ++ ops)%list
                           /\ Forall P ops.

(** The [try] block of [read_table_any], for the temporary copy [tmp]. *)
Definition parse_copy (env : Watch.environment) (tmp : Watch.Path)
  : Watch.W (option Watch.DataFrame) :=
  let suf := Text.lower (Watch.suffix tmp) in
  if mem suf [".xlsx"; ".xls"] then
    Watch.bind (Watch.pd_read_excel env tmp) (fun df => Watch.ret (Some df))
  else if String.eqb suf ".csv" then
    Watch.bind (Watch.try_except (Watch.pd_read_csv env tmp Watch.Utf8Ignore)
                                 (fun _ => Watch.pd_read_csv env tmp Watch.PythonEngine))
               (fun df => Watch.ret (Some df))
  else
    Watch.bind (Watch.print (Watch.UnsupportedType suf)) (fun _ => Watch.ret None).

(** What the parse of the temporary copy [tmp] may do. *)
Definition parses_only (tmp : Watch.Path) (o : Watch.op) : Prop :=
  o = Watch.ReadExcel tmp \/ (exists mode, o = Watch.ReadCsv tmp mode)
  \/ exists suf, o = Watch.Print (Watch.UnsupportedType suf).

(** The number of operations of a trace that satisfy [f]. *)
Definition count_ops (f : Watch.op -> bool) (t : list Watch.op) : nat :=
  List.length (filter f t).

Definition is_stat (o : Watch.op) : bool :=
  match o with Watch.Stat _ => true | _ => false end.
Definition is_copy (o : Watch.op) : bool :=
  match o with Watch.CopyFile _ _ => true | _ => false end.
Definition is_post (o : Watch.op) : bool :=
  match o with Watch.Post _ _ => true | _ => false end.
Definition is_parse (o : Watch.op) : bool :=
  match o with Watch.ReadExcel _ | Watch.ReadCsv _ _ => true | _ => false end.

End Spec.

(* ===================================================================== *)
(** * Properties *)
(* ===================================================================== *)

(** ** Text *)

Section TextFacts.

Import Text Spec.

Ltac by_cases_on_char c := destruct c as [[] [] [] [] [] [] [] []]; reflexivity.

Lemma lower_char_idem (c : ascii) : lower_char (lower_char c) = lower_char c.
Proof. by_cases_on_char c. Qed.

Lemma isspace_lower_char (c : ascii) : isspace (lower_char c) = isspace c.
Proof. by_cases_on_char c. Qed.

Lemma lower_idem (s : string) : lower (lower s) = lower s.
Proof.
  induction s as [|c r IH]; simpl; [reflexivity|].
  now rewrite lower_char_idem, IH.
Qed.

Lemma lstrip_lower (s : string) : lstrip (lower s) = lower (lstrip s).
Proof.
  induction s as [|c r IH]; simpl; [reflexivity|].
  rewrite isspace_lower_char. destruct (isspace c); [exact IH | reflexivity].
Qed.

Lemma rstrip_lower (s : string) : rstrip (lower s) = lower (rstrip s).
Proof.
  induction s as [|c r IH]; simpl; [reflexivity|].
  rewrite IH. destruct (rstrip r) as [|a b]; simpl.
  - rewrite isspace_lower_char. now destruct (isspace c).
  - reflexivity.
Qed.

Lemma strip_lower (s : string) : strip (lower s) = lower (strip s).
Proof. unfold strip. now rewrite lstrip_lower, rstrip_lower. Qed.

Lemma lstrip_clean (s : string) : left_clean (lstrip s).
Proof.
  induction s as [|c r IH]; simpl; [exact I|].
  destruct (isspace c) eqn:E; [exact IH | exact E].
Qed.

Lemma lstrip_of_clean (s : string) : left_clean s -> lstrip s = s.
Proof. destruct s as [|c r]; simpl; [reflexivity|]. now intros ->. Qed.

Lemma rstrip_clean (s : string) : left_clean s -> left_clean (rstrip s).
Proof.
  destruct s as [|c r]; simpl; [trivial|]. intros E.
  destruct (rstrip r); simpl; [now rewrite E | exact E].
Qed.

Lemma rstrip_idem (s : string) : rstrip (rstrip s) = rstrip s.
Proof.
  induction s as [|c r IH]; simpl; [reflexivity|].
  destruct (rstrip r) as [|a b] eqn:E.
  - destruct (isspace c) eqn:Ec; simpl; [reflexivity | now rewrite Ec].
  - change (rstrip (String c (String a b)) = String c (String a b)).
    change (rstrip (String c (String a b)))
      with (match rstrip (String a b) with
            | EmptyString => if isspace c then EmptyString else String c EmptyString
            | r' => String c r'
            end).
    now rewrite IH.
Qed.

Lemma strip_idem (s : string) : strip (strip s) = strip s.
Proof.
  unfold strip.
  rewrite lstrip_of_clean by apply rstrip_clean, lstrip_clean.
  apply rstrip_idem.
Qed.

(** The form the mapper stores an e-mail in is a fixed point of
    [strip] followed by [lower]. *)
Lemma lower_strip_idem (s : string) : lower (strip (lower (strip s))) = lower (strip s).
Proof. now rewrite strip_lower, strip_idem, lower_idem. Qed.

Lemma encode_app (a b : string) : encode (a ++ b) = (encode a ++ encode b)%list.
Proof.
  unfold encode. induction a as [|c r IH]; simpl; [reflexivity|].
  now rewrite IH.
Qed.

End TextFacts.

(** ** Dictionaries *)

Section DictFacts.

Import Py.
Variable V : Type.
Implicit Types (d : dict V) (k : string) (v : V).

Lemma get_set_same k v d : get k (set k v d) = Some v.
Proof.
  induction d as [|[k' v'] r IH]; simpl.
  - now rewrite String.eqb_refl.
  - destruct (String.eqb k k') eqn:E; simpl; rewrite ?E, ?String.eqb_refl; auto.
Qed.

Lemma get_In k v d : get k d = Some v -> In (k, v) d.
Proof.
  induction d as [|[k' v'] r IH]; simpl; [discriminate|].
  destruct (String.eqb_spec k k') as [->|_].
  - intros [= ->]. now left.
  - intros H. right. auto.
Qed.

Lemma In_set k v k0 v0 d :
  In (k0, v0) (set k v d) -> (k0, v0) = (k, v) \/ In (k0, v0) d.
Proof.
  induction d as [|[k' v'] r IH]; simpl.
  - intros [H|[]]. now left.
  - destruct (String.eqb k k'); simpl.
    + intros [H|H]; [now left | now right; right].
    + intros [H|H]; [now right; left |].
      destruct (IH H); [now left | now right; right].
Qed.

Lemma keys_set k v d : has k d = true -> map fst (set k v d) = map fst d.
Proof.
  unfold has. induction d as [|[k' v'] r IH]; simpl; [discriminate|].
  destruct (String.eqb_spec k k') as [->|_]; simpl; [reflexivity|].
  intros H. now rewrite IH.
Qed.

Lemma has_keys k d d' : map fst d = map fst d' -> has k d = has k d'.
Proof.
  unfold has. revert d'.
  induction d as [|[k1 v1] r IH]; intros [|[k2 v2] r']; simpl; try discriminate; auto.
  intros [= -> H]. destruct (String.eqb k k2); auto.
Qed.

End DictFacts.

(** ** Row mapper *)

Section MapperFacts.

Import Py Main Spec.
Local Open Scope string_scope.

Lemma set_unchanged (V : Type) (k : string) (v : V) (d : dict V) :
  get k d = Some v -> set k v d = d.
Proof.
  induction d as [|[k' v'] r IH]; simpl; [discriminate|].
  destruct (String.eqb_spec k k') as [->|_].
  - now intros [= ->].
  - intros H. now rewrite IH.
Qed.

Lemma canonical_shape (c : contact) :
  map fst c = map fst blank_contact ->
  exists e f l p o,
    c = [("email", e); ("firstname", f); ("lastname", l); ("phone", p); ("company", o)].
Proof.
  destruct c as [|[k1 e] [|[k2 f] [|[k3 l] [|[k4 p] [|[k5 o] [|]]]]]];
    simpl; try discriminate.
  intros [= -> -> -> -> ->]. now exists e, f, l, p, o.
Qed.

Lemma fold_left_preserves (A B : Type) (P : A -> Prop) (f : A -> B -> A) (l : list B) :
  (forall a x, In x l -> P a -> P (f a x)) -> forall a, P a -> P (fold_left f l a).
Proof.
  induction l as [|x r IH]; simpl; intros Hstep a Ha; [exact Ha|].
  apply IH; [intros; apply Hstep; auto | apply Hstep; auto].
Qed.

Lemma assign_at_keys vals i prop (c : contact) :
  has prop c = true -> map fst (assign_at vals i prop c) = map fst c.
Proof.
  intros H. unfold assign_at. destruct (nth_error vals i); [|reflexivity].
  now apply keys_set.
Qed.

Lemma scan_headers_keys aliases vals prop hnorm :
  forall i (c : contact), has prop c = true ->
    map fst (scan_headers aliases vals prop i hnorm c) = map fst c.
Proof.
  induction hnorm as [|h rest IH]; simpl; intros i c H; [reflexivity|].
  destruct (mem h (map _norm aliases)); [now apply assign_at_keys | now apply IH].
Qed.

(** *** The explicit branch *)

Section Explicit.

Variables (m : dict string) (headers vals : list string).

Lemma explicit_inv_blank : explicit_inv m headers vals blank_contact.
Proof.
  split; [reflexivity|]. intros k v H. left.
  simpl in H. repeat (destruct H as [[= _ <-]|H]; [reflexivity|]). destruct H.
Qed.

Lemma explicit_step_inv c item :
  In item (lower_map m) -> explicit_inv m headers vals c ->
  explicit_inv m headers vals (explicit_step (map _norm headers) vals c item).
Proof.
  intros Hin [Hkeys Hsrc]. unfold lower_map in Hin.
  apply in_map_iff in Hin. destruct Hin as [[prop src] [<- Hin]].
  apply filter_In in Hin. destruct Hin as [Hm Hhas]. simpl in *.
  destruct (index (_norm src) (map _norm headers)) as [idx|] eqn:Eidx;
    [|now split].
  unfold assign_at. destruct (nth_error vals idx) as [raw|] eqn:Eraw; [|now split].
  split.
  - rewrite keys_set; [exact Hkeys|].
    now rewrite (@has_keys _ prop c blank_contact Hkeys).
  - intros k v H. apply In_set in H. destruct H as [[= -> ->]|H]; [|now apply Hsrc].
    right. now exists src, idx.
Qed.

Lemma explicit_fold_inv :
  explicit_inv m headers vals
    (fold_left (explicit_step (map _norm headers) vals) (lower_map m) blank_contact).
Proof.
  apply fold_left_preserves; [|exact explicit_inv_blank].
  intros a x Hx Ha. now apply explicit_step_inv.
Qed.

End Explicit.

Lemma strip_lower_empty : Text.lower (Text.strip "") = "".
Proof. reflexivity. Qed.

Lemma nonempty_true (v : string) : Text.nonempty v = true -> v <> "".
Proof. now destruct v. Qed.

(** The contact before the final clean-up always has the five keys. *)
Lemma resolved_keys headers vals (mapping : option (dict string)) :
  map fst
      (if truthy_mapping mapping then
         fold_left (explicit_step (map _norm headers) vals)
                   (map (fun kv => (fst kv, _norm (snd kv)))
                        (filter (fun kv => has (fst kv) blank_contact)
                                (match mapping with Some m => m | None => [] end)))
                   blank_contact
       else fold_left (heuristic_step (map _norm headers) vals) HEADER_ALIASES blank_contact)
  = map fst blank_contact.
Proof.
  destruct (truthy_mapping mapping).
  - apply explicit_fold_inv.
  - apply fold_left_preserves; [|reflexivity].
    intros c [prop aliases] Hin Hc. unfold heuristic_step.
    rewrite scan_headers_keys; [exact Hc|].
    rewrite (@has_keys _ prop c blank_contact Hc).
    simpl in Hin.
    repeat (destruct Hin as [[= <- _]|Hin]; [reflexivity|]). destruct Hin.
Qed.

End MapperFacts.

Section HeuristicFacts.

Import Py Main Spec.
Local Open Scope string_scope.

Lemma find_match_first aliases headers :
  forall i, first_match aliases headers i -> find_match aliases headers = Some i.
Proof.
  induction headers as [|h rest IH]; intros i [[x [Hx Hm]] Hbefore].
  - now destruct i.
  - simpl. destruct i as [|i].
    + simpl in Hx. injection Hx as ->. now rewrite Hm.
    + rewrite (Hbefore O h) by (simpl; auto; lia).
      rewrite (IH i); [reflexivity|]. split.
      * now exists x.
      * intros j y Hj Hy. apply (Hbefore (S j) y); [lia | exact Hy].
Qed.

Lemma find_match_none aliases headers :
  no_match aliases headers -> find_match aliases headers = None.
Proof.
  induction headers as [|h rest IH]; intros H; simpl; [reflexivity|].
  rewrite (H h) by now left.
  rewrite IH; [reflexivity|]. intros y Hy. apply H. now right.
Qed.

Lemma scan_headers_find aliases vals prop headers :
  forall i (c : contact),
    scan_headers aliases vals prop i (map _norm headers) c
    = match find_match aliases headers with
      | Some j => assign_at vals (i + j) prop c
      | None => c
      end.
Proof.
  induction headers as [|h rest IH]; intros i c; simpl; [reflexivity|].
  unfold matches at 1. destruct (mem (_norm h) (map _norm aliases)).
  - now rewrite Nat.add_0_r.
  - rewrite IH. destruct (find_match aliases rest); simpl; [|reflexivity].
    now rewrite Nat.add_succ_r.
Qed.

Lemma scan_headers_value aliases vals prop headers (c : contact) :
  get prop c = Some "" ->
  scan_headers aliases vals prop 0 (map _norm headers) c
  = set prop (heuristic_value aliases headers vals) c.
Proof.
  intros Hblank. rewrite scan_headers_find. unfold heuristic_value, assign_at.
  destruct (find_match aliases headers) as [j|]; simpl.
  - destruct (nth_error vals j) as [v|] eqn:E.
    + now rewrite (nth_error_nth _ _ _ E).
    + rewrite nth_overflow by now apply nth_error_None.
      symmetry. now apply set_unchanged.
  - symmetry. now apply set_unchanged.
Qed.

Lemma heuristic_closed_form headers values :
  map_row_to_contact headers values None = heuristic_contact headers values.
Proof.
  unfold map_row_to_contact, heuristic_contact, HEADER_ALIASES.
  cbn [truthy_mapping fold_left heuristic_step].
  rewrite (@scan_headers_value _ _ "email") by reflexivity.
  rewrite (@scan_headers_value _ _ "firstname") by reflexivity.
  rewrite (@scan_headers_value _ _ "lastname") by reflexivity.
  rewrite (@scan_headers_value _ _ "phone") by reflexivity.
  rewrite (@scan_headers_value _ _ "company") by reflexivity.
  reflexivity.
Qed.

End HeuristicFacts.

(** ** Claims about the row fingerprint and the row mapper *)

Section MapperClaims.

Import Py Main Spec.
Local Open Scope string_scope.

(** The model of [hashlib.sha256] on the test vector of FIPS 180-4. *)
Example sha256_abc :
  Sha256.hexdigest (Sha256.update Sha256.sha256 (Text.encode "abc"))
  = "ba7816bf8f01cfea414140de5dae2223b00361a396177a9cb410ff61f20015ad".
Proof. vm_compute. reflexivity. Qed.

(** Two blocks are needed for this one. *)
Example sha256_two_blocks :
  Sha256.hexdigest
    (Text.encode "abcdbcdecdefdefgefghfghighijhijkijkljklmklmnlmnomnopnopq")
  = "248d6a61d20638b8e5c026930c3e6039a33ce45964ff2167f6ecedd419db06c1".
Proof. vm_compute. reflexivity. Qed.

Lemma row_hash_of_text headers values :
  row_hash headers values = Sha256.hexdigest (Text.encode (row_text headers values)).
Proof.
  unfold row_hash, row_text, Sha256.update, Sha256.sha256.
  now rewrite encode_app.
Qed.




(** C10: an explicit mapping equal to the empty dict gives the contact
    that no mapping gives, and that contact is the one built by heuristic
    alias matching. *)
Theorem empty_mapping_is_no_mapping :
  forall headers values,
    map_row_to_contact headers values (Some []) = map_row_to_contact headers values None
    /\ map_row_to_contact headers values (Some []) = heuristic_contact headers values.
Proof.
  intros headers values. split; [reflexivity|].
  exact (heuristic_closed_form headers values).
Qed.

(** C4, as stated, fails for the empty mapping: it is an explicit mapping
    that was supplied, and the fields are resolved by alias matching. *)
Lemma empty_mapping_consults_heuristics :
  map_row_to_contact ["Email"; "First Name"] [Some "a@b.com"; Some "Ann"] (Some [])
  = [("email", "a@b.com"); ("firstname", "Ann")].
Proof. vm_compute. reflexivity. Qed.

Lemma In_filter_nonempty (c : contact) k v :
  In (k, v) (filter (fun kv => Text.nonempty (snd kv)) c) -> In (k, v) c /\ v <> "".
Proof.
  intros H. apply filter_In in H. destruct H as [H E]. split; [exact H|].
  now apply nonempty_true.
Qed.

(** C4, amended: with a non-empty explicit mapping, every field of the
    result is a field the mapping names, and its value is the cell under
    the header the mapping names for it (lowercased and trimmed for the
    e-mail); alias matching adds nothing.  On headers [Email, First Name],
    values [a@b.com, Ann] and mapping {lastname: First Name} the result is
    exactly {lastname: Ann}. *)
Theorem explicit_mapping_excludes_heuristics :
  (forall headers values (m : dict string) k v,
      m <> [] ->
      In (k, v) (map_row_to_contact headers values (Some m)) ->
      exists raw,
        explicit_source m headers (map text_of_cell values) k raw /\ v = stored k raw)
  /\ map_row_to_contact ["Email"; "First Name"] [Some "a@b.com"; Some "Ann"]
                        (Some [("lastname", "First Name")])
     = [("lastname", "Ann")].
Proof.
  split; [|vm_compute; reflexivity].
  intros headers values m k v Hm Hin.
  unfold map_row_to_contact in Hin.
  assert (Ht : truthy_mapping (Some m) = true) by (destruct m; [congruence | reflexivity]).
  rewrite Ht in Hin. cbv zeta in Hin.
  destruct (explicit_fold_inv m headers (map text_of_cell values)) as [Hkeys Hsrc].
  unfold lower_map in Hkeys, Hsrc.
  destruct (canonical_shape _ Hkeys) as (e & f & l & p & o & Hshape).
  rewrite Hshape in Hin, Hsrc.
  apply In_filter_nonempty in Hin. destruct Hin as [Hin Hv].
  cbn [get set String.eqb Ascii.eqb Bool.eqb] in Hin.
  destruct Hin as [[= <- <-]|Hin].
  - destruct (Hsrc "email" e) as [->|Hs]; [now left | now elim Hv | ].
    exists e. split; [exact Hs | reflexivity].
  - destruct (Hsrc k v) as [->|Hs]; [now right | now elim Hv |].
    exists v. split; [exact Hs|].
    unfold stored. simpl in Hin.
    repeat (destruct Hin as [[= <- _]|Hin]; [reflexivity|]). destruct Hin.
Qed.

Lemma explicit_mapping_excludes_heuristics_witness :
  exists raw,
    explicit_source [("lastname", "First Name")] ["Email"; "First Name"]
                    (map text_of_cell [Some "a@b.com"; Some "Ann"]) "lastname" raw
    /\ "Ann" = stored "lastname" raw.
Proof.
  apply (proj1 explicit_mapping_excludes_heuristics
               ["Email"; "First Name"] [Some "a@b.com"; Some "Ann"]
               [("lastname", "First Name")] "lastname" "Ann").
  - discriminate.
  - vm_compute. left. reflexivity.
Defined.

End MapperClaims.

(** ** Traffic of the CRM client *)

Section TrafficFacts.

Import Py Main Spec.
Local Open Scope string_scope.

Variable P : effect -> Prop.

Lemma extends_refl w : extends P w w.
Proof.
  split; [reflexivity|]. exists []. split; [now rewrite app_nil_r | constructor].
Qed.

Lemma extends_trans w1 w2 w3 : extends P w1 w2 -> extends P w2 w3 -> extends P w1 w3.
Proof.
  intros [E1 (s1 & T1 & F1)] [E2 (s2 & T2 & F2)]. split; [congruence|].
  exists (s1 ++ s2)%list. split.
  - now rewrite T2, T1, app_assoc.
  - apply Forall_app. now split.
Qed.

Lemma emits_ret (A : Type) (a : A) : emits P (ret a).
Proof. intros w. apply extends_refl. Qed.

Lemma emits_raise (A : Type) (e : exn) : emits P (@raise A e).
Proof. intros w. apply extends_refl. Qed.

Lemma emits_bind (A B : Type) (c : M A) (k : A -> M B) :
  emits P c -> (forall a, emits P (k a)) -> emits P (bind c k).
Proof.
  intros Hc Hk w. unfold bind. specialize (Hc w).
  destruct (c w) as [[a|e] w1]; simpl in *; [|exact Hc].
  eapply extends_trans; [exact Hc | apply Hk].
Qed.

Lemma emits_one (eff : effect) w :
  P eff -> extends P w (World (events w) (traffic w ++ [eff])).
Proof.
  intros H. split; [reflexivity|]. exists [eff]. split; [reflexivity|].
  now constructor.
Qed.

Lemma emits_request crm method url kw :
  P (Request method url kw) -> emits P (request crm method url kw).
Proof.
  intros H w. unfold request.
  destruct (crm (traffic w) method url kw); simpl; now apply emits_one.
Qed.

Lemma emits_sleep secs : P (Sleep secs) -> emits P (sleep secs).
Proof. intros H w. now apply emits_one. Qed.

Lemma emits_retry_loop crm method url kw :
  P (Request method url kw) -> (forall secs, P (Sleep secs)) ->
  forall attempts r, emits P (retry_loop crm attempts r method url kw).
Proof.
  intros Hreq Hsleep. induction attempts as [|attempt rest IH]; intros r; simpl.
  - destruct r; [apply emits_ret | apply emits_raise].
  - apply emits_bind; [now apply emits_request|]. intros r'.
    destruct (retryable r'); [|apply emits_ret].
    apply emits_bind; [apply emits_sleep, Hsleep | intros _; apply IH].
Qed.

Lemma emits_hs_headers cfg : emits P (_hs_headers cfg).
Proof.
  unfold _hs_headers. destruct (Text.nonempty _); [apply emits_ret | apply emits_raise].
Qed.

Hypothesis sleeps_allowed : forall secs, P (Sleep secs).
Hypothesis searches_allowed :
  forall method url hs email, P (Request method url (Kw hs (SearchByEmail email))).

Lemma emits_find cfg crm email : emits P (hubspot_find_contact_by_email cfg crm email).
Proof.
  unfold hubspot_find_contact_by_email.
  apply emits_bind; [apply emits_hs_headers|]. intros hs.
  apply emits_bind; [apply emits_retry_loop; auto|]. intros r.
  destruct (400 <=? status_code r)%Z; [apply emits_raise|].
  destruct (json r); [apply emits_ret | apply emits_raise].
Qed.

Variable props : contact.
Hypothesis bag_allowed :
  forall method url hs, P (Request method url (Kw hs (Properties props))).

Lemma emits_create cfg crm : emits P (hubspot_create_contact cfg crm props).
Proof.
  unfold hubspot_create_contact.
  apply emits_bind; [apply emits_hs_headers|]. intros hs.
  apply emits_bind; [apply emits_retry_loop; auto|]. intros r.
  destruct (400 <=? status_code r)%Z; [apply emits_raise|].
  destruct (json r); [apply emits_ret | apply emits_raise].
Qed.

Lemma emits_update cfg crm cid : emits P (hubspot_update_contact cfg crm cid props).
Proof.
  unfold hubspot_update_contact.
  apply emits_bind; [apply emits_hs_headers|]. intros hs.
  apply emits_bind; [apply emits_retry_loop; auto|]. intros r.
  destruct (400 <=? status_code r)%Z; [apply emits_raise | apply emits_ret].
Qed.

Lemma emits_upsert cfg crm (c : contact) :
  props = filter (fun kv => Text.nonempty (snd kv)) c ->
  emits P (upsert_contact_to_hubspot cfg crm c).
Proof.
  intros Hbag. unfold upsert_contact_to_hubspot. rewrite <- Hbag.
  destruct (negb _); [apply emits_ret|].
  apply emits_bind; [apply emits_find|]. intros [[|a cid]|].
  - apply emits_bind; [apply emits_create | intros; apply emits_ret].
  - apply emits_bind; [apply emits_update | intros; apply emits_ret].
  - apply emits_bind; [apply emits_create | intros; apply emits_ret].
Qed.

End TrafficFacts.

(** ** Claims about the mapped contact *)

Section ContactClaims.

Import Py Main Spec.
Local Open Scope string_scope.

Lemma get_absent (V : Type) k (d : dict V) : ~ In k (map fst d) -> get k d = None.
Proof.
  induction d as [|[k' v'] r IH]; simpl; [reflexivity|]. intros H.
  destruct (String.eqb_spec k k') as [->|_]; [elim H; now left|].
  apply IH. intros Hin. apply H. now right.
Qed.

Lemma keys_filter (V : Type) (f : string * V -> bool) k (d : dict V) :
  In k (map fst (filter f d)) -> In k (map fst d).
Proof.
  intros H. apply in_map_iff in H. destruct H as [kv [<- H]].
  apply filter_In in H. apply in_map. tauto.
Qed.

Lemma get_filter (d : contact) k :
  NoDup (map fst d) ->
  get k (filter (fun kv => Text.nonempty (snd kv)) d)
  = match get k d with Some v => kept v | None => None end.
Proof.
  induction d as [|[k' v'] r IH]; simpl; [reflexivity|].
  intros Hnd. inversion Hnd as [|? ? Hnotin Hrest]; subst.
  destruct (Text.nonempty v') eqn:Ev; simpl.
  - destruct (String.eqb_spec k k') as [->|_]; [|now apply IH].
    unfold kept. now rewrite Ev.
  - destruct (String.eqb_spec k k') as [->|_]; [|now apply IH].
    unfold kept. rewrite Ev. apply get_absent.
    intros H. apply Hnotin. eapply keys_filter. exact H.
Qed.

Lemma canonical_keys_nodup : NoDup (map fst blank_contact).
Proof.
  simpl. repeat constructor; simpl; intuition discriminate.
Qed.

(** The e-mail of a mapped contact is what survives of a lowercased,
    trimmed text. *)
Lemma mapped_email headers values mapping :
  exists raw,
    get "email" (map_row_to_contact headers values mapping)
    = kept (Text.lower (Text.strip raw)).
Proof.
  unfold map_row_to_contact. cbv zeta.
  pose proof (resolved_keys headers (map text_of_cell values) mapping) as Hkeys.
  set (c := if truthy_mapping mapping then _ else _) in *.
  exists (match get "email" c with Some e => e | None => "" end).
  rewrite get_filter.
  - now rewrite get_set_same.
  - rewrite keys_set; [rewrite Hkeys; apply canonical_keys_nodup|].
    now rewrite (@has_keys _ "email" c blank_contact Hkeys).
Qed.

Lemma kept_some v x : kept v = Some x -> x = v /\ Text.nonempty v = true.
Proof. unfold kept. destruct (Text.nonempty v); [now intros [= ->] | discriminate]. Qed.

Lemma mapped_email_normal headers values mapping e :
  get "email" (map_row_to_contact headers values mapping) = Some e ->
  Text.lower (Text.strip e) = e /\ Text.nonempty e = true.
Proof.
  destruct (mapped_email headers values mapping) as [raw ->].
  intros H. apply kept_some in H. destruct H as [-> H]. split; [|exact H].
  apply lower_strip_idem.
Qed.

Lemma mapped_no_blank headers values mapping k v :
  In (k, v) (map_row_to_contact headers values mapping) -> v <> "".
Proof.
  unfold map_row_to_contact. cbv zeta. intros H.
  now apply In_filter_nonempty in H.
Qed.

Lemma filter_nonempty_fixed (c : contact) :
  (forall k v, In (k, v) c -> v <> "") ->
  filter (fun kv => Text.nonempty (snd kv)) c = c.
Proof.
  induction c as [|[k v] r IH]; intros H; simpl; [reflexivity|].
  destruct v as [|a b]; [now elim (H k "" (or_introl eq_refl))|].
  simpl. f_equal. apply IH. intros k' v' Hin. apply (H k' v'). now right.
Qed.



(** C5: with no explicit mapping, for each canonical field and its alias
    set, if header number [i] is the first one whose normalised form is an
    alias, the field holds the cell number [i] of the row (trimmed and
    lowercased for the e-mail), and is absent when that cell is missing or
    empty; if no header matches, the field is absent.  On headers
    [Mobile Phone, E-Mail] and values [555-1234, "X@Y.com "] the result is
    exactly {email: x@y.com, phone: 555-1234}. *)
Theorem heuristic_first_match_wins :
  (forall headers values prop aliases,
      In (prop, aliases) HEADER_ALIASES ->
      (forall i, first_match aliases headers i ->
                 get prop (map_row_to_contact headers values None)
                 = kept (stored prop (nth i (map text_of_cell values) "")))
      /\ (no_match aliases headers ->
          get prop (map_row_to_contact headers values None) = None))
  /\ map_row_to_contact ["Mobile Phone"; "E-Mail"] [Some "555-1234"; Some "X@Y.com "] None
     = [("email", "x@y.com"); ("phone", "555-1234")].
Proof.
  split; [|vm_compute; reflexivity].
  intros headers values prop aliases Hin.
  assert (Hget : get prop (map_row_to_contact headers values None)
                 = kept (stored prop (heuristic_value aliases headers
                                                      (map text_of_cell values)))).
  { rewrite heuristic_closed_form. unfold heuristic_contact.
    rewrite get_filter by (simpl; repeat constructor; simpl; intuition discriminate).
    simpl in Hin.
    repeat (destruct Hin as [[= <- <-]|Hin]; [reflexivity|]). destruct Hin. }
  rewrite Hget. split.
  - intros i Hi. unfold heuristic_value. now rewrite (find_match_first Hi).
  - intros Hnone. unfold heuristic_value. rewrite (find_match_none Hnone).
    unfold stored. now destruct (String.eqb prop "email").
Qed.

Lemma heuristic_first_match_wins_witness :
  get "email" (map_row_to_contact ["Mobile Phone"; "E-Mail"]
                                  [Some "555-1234"; Some "X@Y.com "] None)
  = Some "x@y.com".
Proof.
  apply (proj1 (proj1 heuristic_first_match_wins
                      ["Mobile Phone"; "E-Mail"] [Some "555-1234"; Some "X@Y.com "]
                      "email" ["email"; "e-mail"; "mail"]
                      (or_introl eq_refl)) 1).
  split.
  - exists "E-Mail". split; reflexivity.
  - intros j h Hj Hh. destruct j as [|j]; [|lia].
    simpl in Hh. injection Hh as <-. reflexivity.
Defined.

End ContactClaims.

(** ** Ingestion *)

Section IngestFacts.

Import Py Main Spec.
Local Open Scope string_scope.

Variable cfg : config.
Variable crm : upstream.

Lemma for_row_event_for p a i d : for_row p (event_for p a i d) = true.
Proof.
  unfold for_row, event_for, event_matches. simpl.
  now rewrite !String.eqb_refl, Z.eqb_refl.
Qed.

Lemma upsert_keeps_events (c : contact) w :
  events (snd (upsert_contact_to_hubspot cfg crm c w)) = events w.
Proof.
  destruct (@emits_upsert (fun _ => True) (fun _ => I) (fun _ _ _ _ => I) _
                          (fun _ _ _ => I) cfg crm c eq_refl w) as [H _].
  exact H.
Qed.

(** Past its first test, the upsert ends in an update, a creation or an
    exception. *)
Lemma upsert_outcome (c : contact) w :
  Text.nonempty
    (Text.lower (Text.strip (match get "email" c with Some e => e | None => "" end))) = true ->
  match fst (upsert_contact_to_hubspot cfg crm c w) with
  | Return (Skipped _) => False
  | _ => True
  end.
Proof.
  intros He. unfold upsert_contact_to_hubspot. rewrite He. simpl. unfold bind.
  destruct (hubspot_find_contact_by_email _ _ _ w) as [[[[|a cid]|]|e] w1]; simpl; trivial.
  - destruct (hubspot_create_contact _ _ _ w1) as [[?|?] ?]; simpl; trivial.
  - destruct (hubspot_update_contact _ _ _ _ w1) as [[?|?] ?]; simpl; trivial.
  - destruct (hubspot_create_contact _ _ _ w1) as [[?|?] ?]; simpl; trivial.
Qed.

Lemma mapped_upsert_outcome headers values mapping w :
  (match get "email" (map_row_to_contact headers values mapping) with
   | Some e => Text.nonempty e
   | None => false
   end) = true ->
  match fst (upsert_contact_to_hubspot cfg crm (map_row_to_contact headers values mapping) w)
  with
  | Return (Skipped _) => False
  | _ => True
  end.
Proof.
  intros H. apply upsert_outcome.
  destruct (get "email" _) as [e|] eqn:E; [|discriminate].
  destruct (mapped_email_normal _ _ _ E) as [-> _]. exact H.
Qed.

(** The duplicate short-circuit. *)
Lemma ingest_rows_seen p secret w :
  secret_matches cfg secret = true ->
  existsb (for_row p) (events w) = true ->
  ingest_rows cfg crm p secret w
  = (Return IsDuplicate,
     World (events w ++ [event_for p "duplicate" "" (Literal "")]) (traffic w)).
Proof.
  intros Hs Hseen. unfold ingest_rows. rewrite Hs. cbn [negb].
  unfold bind at 1. unfold already_processed. unfold for_row in Hseen.
  rewrite Hseen. reflexivity.
Qed.

(** What one authorised call does to the audit log: exactly one event is
    appended, it belongs to the submitted row, and it is a ["duplicate"]
    event precisely when the row had an event before. *)
Lemma ingest_rows_logs_one p secret w :
  secret_matches cfg secret = true ->
  exists a i d,
    events (snd (ingest_rows cfg crm p secret w)) = (events w ++ [event_for p a i d])%list
    /\ a <> "unknown"
    /\ (a = "duplicate" <-> existsb (for_row p) (events w) = true).
Proof.
  intros Hs. destruct (existsb (for_row p) (events w)) eqn:Hseen.
  - rewrite (ingest_rows_seen p secret w Hs Hseen).
    exists "duplicate", "", (Literal ""). repeat split; (discriminate || reflexivity).
  - unfold ingest_rows. rewrite Hs. cbn [negb].
    unfold bind at 1. unfold already_processed. unfold for_row in Hseen.
    rewrite Hseen. unfold try_except.
    set (c := map_row_to_contact _ _ _).
    destruct (match get "email" c with Some e => Text.nonempty e | None => false end) eqn:He;
      cbn [negb].
    + unfold bind at 1.
      pose proof (upsert_keeps_events c w) as Hev.
      pose proof (mapped_upsert_outcome _ _ _ w He) as Hout. fold c in Hout.
      destruct (upsert_contact_to_hubspot cfg crm c w) as [[res|e] w1]; simpl in Hev, Hout.
      * exists (action_of res), (id_of res), (StrOf c). simpl. rewrite Hev.
        repeat split; destruct res; simpl; try (discriminate || contradiction || reflexivity).
      * exists "error", "", (ReprOf e). simpl. rewrite Hev.
        repeat split; (discriminate || reflexivity).
    + exists "skipped", "", (Literal "missing email"). simpl.
      repeat split; (discriminate || reflexivity).
Qed.

End IngestFacts.

Section IngestClaims.

Import Py Main Spec.
Local Open Scope string_scope.

Lemma same_submission_row p1 p2 :
  same_submission p1 p2 -> for_row p2 = for_row p1 /\ event_for p2 = event_for p1.
Proof.
  destruct p1, p2. unfold same_submission, for_row, event_for. simpl.
  intros (-> & -> & -> & -> & ->). now split.
Qed.

Lemma filter_none_seen (A : Type) (f g : A -> bool) (l : list A) :
  existsb f l = false -> filter (fun x => f x && g x) l = [].
Proof.
  induction l as [|x r IH]; simpl; [reflexivity|].
  intros H. apply orb_false_iff in H. destruct H as [-> H]. simpl. now apply IH.
Qed.

Lemma existsb_In (A : Type) (f : A -> bool) (x : A) (l : list A) :
  In x l -> f x = true -> existsb f l = true.
Proof. intros Hin Hf. apply existsb_exists. now exists x. Qed.

Lemma existsb_agree (A : Type) (f g : A -> bool) (l : list A) :
  (forall x, f x = g x) -> existsb f l = existsb g l.
Proof. intros H. induction l as [|x r IH]; simpl; [reflexivity|]. now rewrite H, IH. Qed.

Lemma for_row_same_key p q a i d :
  for_row p (event_for q a i d) = true -> forall ev, for_row q ev = for_row p ev.
Proof.
  unfold for_row, event_for, event_matches. simpl. intros H ev.
  apply andb_true_iff in H. destruct H as [H H4].
  apply andb_true_iff in H. destruct H as [H H3].
  apply andb_true_iff in H. destruct H as [H1 H2].
  apply String.eqb_eq in H1, H2, H4. apply Z.eqb_eq in H3.
  now rewrite H1, H2, H3, H4.
Qed.

(** In every reachable world a row has one non-duplicate event if it has
    any event, and none otherwise. *)
Lemma one_non_duplicate_per_row cfg crm w :
  reachable cfg crm w ->
  forall p,
    List.length (non_duplicates p (events w))
    = if existsb (for_row p) (events w) then 1 else 0.
Proof.
  induction 1 as [|w q secret Hreach IH]; intros p; [reflexivity|].
  destruct (secret_matches cfg secret) eqn:Hs.
  - destruct (ingest_rows_logs_one cfg crm q secret w Hs) as (a & i & d & Hlog & _ & Hdup).
    rewrite Hlog. unfold non_duplicates. rewrite filter_app, length_app, existsb_app.
    fold (non_duplicates p (events w)). rewrite IH. simpl.
    destruct (for_row p (event_for q a i d)) eqn:Hkey; simpl.
    + rewrite (existsb_agree _ _ (events w) (for_row_same_key _ _ _ _ _ Hkey)) in Hdup.
      destruct (existsb (for_row p) (events w)).
      * rewrite (proj2 Hdup eq_refl). reflexivity.
      * destruct (String.eqb_spec a "duplicate") as [Ha|_]; [|reflexivity].
        apply Hdup in Ha. discriminate.
    + rewrite !orb_false_r. simpl. lia.
  - unfold ingest_rows. rewrite Hs. simpl. apply IH.
Qed.


End IngestClaims.

Section IngestWitnesses.

Import Py Main Spec.
Local Open Scope string_scope.




End IngestWitnesses.

(** ** Retrying transport *)

Section RetryFacts.

Import Py Main Spec.
Local Open Scope string_scope.

Variable crm : upstream.

Lemma requests_app t1 t2 : requests (t1 ++ t2) = requests t1 + requests t2.
Proof. unfold requests. now rewrite filter_app, length_app. Qed.

Lemma requests_one method url kw : requests [Request method url kw] = 1.
Proof. reflexivity. Qed.

Lemma requests_sleep secs : requests [Sleep secs] = 0.
Proof. reflexivity. Qed.

(** At most one request per element of the attempt list. *)
Lemma retry_loop_bounded method url kw :
  forall attempts r w,
    requests (traffic (snd (retry_loop crm attempts r method url kw w)))
    <= requests (traffic w) + List.length attempts.
Proof.
  induction attempts as [|attempt rest IH]; intros r w; simpl.
  - destruct r; simpl; lia.
  - unfold bind at 1. unfold request.
    destruct (crm (traffic w) method url kw) as [r'|]; simpl.
    + destruct (retryable r'); simpl.
      * unfold bind. simpl.
        etransitivity; [apply IH|]. simpl.
        rewrite !requests_app, requests_one, requests_sleep. lia.
      * rewrite requests_app, requests_one. lia.
    + rewrite requests_app, requests_one. lia.
Qed.

Lemma request_retry_at_most_five method url kw w :
  requests (traffic (snd (_request_retry crm method url kw w))) <= requests (traffic w) + 5.
Proof. apply (retry_loop_bounded method url kw (seq 0 5) None w). Qed.

(** A first response that is neither 5xx nor 429 is returned at once:
    one request, no sleep. *)
Lemma request_retry_returns_at_once method url kw w r :
  crm (traffic w) method url kw = Replied r ->
  retryable r = false ->
  _request_retry crm method url kw w
  = (Return r, World (events w) (traffic w ++ [Request method url kw])).
Proof.
  intros Hr Hok. unfold _request_retry. simpl. unfold bind, request.
  now rewrite Hr, Hok.
Qed.

Lemma retryable_iff r :
  retryable r = true <-> (500 <= status_code r \/ status_code r = 429)%Z.
Proof.
  unfold retryable.
  destruct (Z.ltb_spec (status_code r) 500), (Z.eqb_spec (status_code r) 429);
    simpl; split; intros; (lia || congruence || auto).
Qed.

End RetryFacts.

Section RetryClaims.

Import Py Main Spec.
Local Open Scope string_scope.

(** C3, the code on five responses 500 (and, for comparison, on four
    responses 500 followed by 200): after 500, 500, 500, 500, 200 the call
    returns the 200 after five requests and the four sleeps 0.5, 1, 2, 4;
    after five responses 500 it returns the last 500, but only after a
    fifth sleep, of 6 seconds, that follows the last attempt. *)
Theorem request_retry_sleeps_after_last_attempt :
  let kw := Kw [] (SearchByEmail "a@b.com") in
  let bad := Response 500 "" None in
  let good := Response 200 "" None in
  let recovering : upstream :=
    fun t _ _ _ => Replied (if Nat.ltb (requests t) 4 then bad else good) in
  let failing : upstream := fun _ _ _ _ => Replied bad in
  let run_ok := _request_retry recovering "POST" "u" kw (World [] []) in
  let run_ko := _request_retry failing "POST" "u" kw (World [] []) in
  (fst run_ok = Return good
   /\ requests (traffic (snd run_ok)) = 5
   /\ sleeps (traffic (snd run_ok)) = [(1 # 2)%Q; 1%Q; 2%Q; 4%Q])
  /\ (fst run_ko = Return bad
      /\ requests (traffic (snd run_ko)) = 5
      /\ sleeps (traffic (snd run_ko)) = [(1 # 2)%Q; 1%Q; 2%Q; 4%Q; 6%Q]
      /\ last (traffic (snd run_ko)) (Sleep 0) = Sleep 6).
Proof. vm_compute. repeat split. Qed.

End RetryClaims.

(** ** Watcher *)

Section WatchFacts.

Import Py Watch Spec.
Local Open Scope string_scope.

Variable env : environment.

Lemma grows_ret (A : Type) (a : A) : grows (ret a).
Proof. intros s. split; [reflexivity|]. exists []. now rewrite app_nil_r. Qed.

Lemma grows_raise (A : Type) (e : exn) : grows (@raise A e).
Proof. intros s. split; [reflexivity|]. exists []. now rewrite app_nil_r. Qed.

Lemma grows_step (A : Type) (c : W A) (s : state) (k : state -> state) :
  grows c ->
  (forall s1, _last_event (k s1) = _last_event s1
              /\ exists ops, trace (k s1) = (trace s1 ++ ops)%list) ->
  _last_event (k (snd (c s))) = _last_event s
  /\ exists ops, trace (k (snd (c s))) = (trace s ++ ops)%list.
Proof.
  intros Hc Hk. destruct (Hc s) as [L1 [o1 T1]].
  destruct (Hk (snd (c s))) as [L2 [o2 T2]]. split; [congruence|].
  exists (o1 ++ o2)%list. now rewrite T2, T1, app_assoc.
Qed.

Lemma grows_bind (A B : Type) (c : W A) (k : A -> W B) :
  grows c -> (forall a, grows (k a)) -> grows (bind c k).
Proof.
  intros Hc Hk s. unfold bind.
  destruct (c s) as [[a|e] s1] eqn:E.
  - pose proof (grows_step s (fun s1 => snd (k a s1)) Hc (Hk a)) as H.
    now rewrite E in H.
  - pose proof (Hc s) as H. now rewrite E in H.
Qed.

Lemma grows_try_except (A : Type) (body : W A) (handler : exn -> W A) :
  grows body -> (forall e, grows (handler e)) -> grows (try_except body handler).
Proof.
  intros Hb Hh s. unfold try_except.
  destruct (body s) as [[a|e] s1] eqn:E.
  - pose proof (Hb s) as H. now rewrite E in H.
  - pose proof (grows_step s (fun s1 => snd (handler e s1)) Hb (Hh e)) as H.
    now rewrite E in H.
Qed.

Lemma grows_try_finally (A : Type) (body : W A) (cleanup : W unit) :
  grows body -> grows cleanup -> grows (try_finally body cleanup).
Proof.
  intros Hb Hc s. unfold try_finally.
  pose proof (grows_step s (fun s1 => snd (cleanup s1)) Hb Hc) as H.
  now destruct (body s).
Qed.

Lemma grows_perform (A : Type) (ask : list op -> A) (o : op) : grows (perform ask o).
Proof. intros s. split; [reflexivity|]. now exists [o]. Qed.

Lemma grows_emit (o : op) : grows (emit o).
Proof. intros s. split; [reflexivity|]. now exists [o]. Qed.

Lemma grows_stable_loop path checks interval :
  forall polls last_size stable,
    grows (stable_loop env polls path checks interval last_size stable).
Proof.
  induction polls as [|more IH]; intros last_size stable; simpl; [apply grows_ret|].
  apply grows_bind; [apply grows_perform|]. intros [size|].
  - destruct (_ && _).
    + destruct (_ <=? _)%Z; [apply grows_ret|].
      apply grows_bind; [apply grows_emit | intros _; apply IH].
    + apply grows_bind; [apply grows_emit | intros _; apply IH].
  - apply grows_bind; [apply grows_emit | intros _; apply IH].
Qed.

Lemma grows_copy_loop path temp_path :
  forall tries, grows (copy_loop env tries path temp_path).
Proof.
  induction tries as [|more IH]; simpl; [apply grows_ret|].
  apply grows_bind; [apply grows_perform|]. intros [|]; [apply grows_ret|].
  apply grows_bind; [apply grows_emit | intros _; apply IH].
Qed.

Lemma grows_copy_to_temp path : grows (copy_to_temp env path).
Proof.
  unfold copy_to_temp. apply grows_bind; [apply grows_stable_loop|].
  intros [|]; cbn [negb]; [apply grows_copy_loop | apply grows_ret].
Qed.

Lemma grows_pd_read_excel p : grows (pd_read_excel env p).
Proof.
  unfold pd_read_excel. apply grows_bind; [apply grows_perform|].
  intros [df|]; [apply grows_ret | apply grows_raise].
Qed.

Lemma grows_pd_read_csv p mode : grows (pd_read_csv env p mode).
Proof.
  unfold pd_read_csv. apply grows_bind; [apply grows_perform|].
  intros [df|]; [apply grows_ret | apply grows_raise].
Qed.

Lemma grows_unlink_quietly p : grows (unlink_quietly env p).
Proof.
  unfold unlink_quietly. apply grows_bind; [apply grows_perform | intros; apply grows_ret].
Qed.

Lemma grows_read_table_any path : grows (read_table_any env path).
Proof.
  unfold read_table_any. apply grows_bind; [apply grows_copy_to_temp|].
  intros [tmp|]; [|apply grows_ret].
  apply grows_try_finally; [|apply grows_unlink_quietly].
  destruct (mem _ _).
  - apply grows_bind; [apply grows_pd_read_excel | intros; apply grows_ret].
  - destruct (String.eqb _ _).
    + apply grows_bind; [|intros; apply grows_ret].
      apply grows_try_except; [apply grows_pd_read_csv | intros; apply grows_pd_read_csv].
    + apply grows_bind; [apply grows_emit | intros; apply grows_ret].
Qed.

Lemma grows_send_first_row df : grows (send_first_row env df).
Proof.
  unfold send_first_row. destruct (empty df); [apply grows_emit|].
  apply grows_bind; [apply grows_perform|]. intros [status text json_ok|].
  - apply grows_bind; [apply grows_emit|]. intros _.
    destruct (_ <=? _)%Z; [apply grows_emit|].
    destruct json_ok; apply grows_emit.
  - apply grows_emit.
Qed.

(** Whatever the parse does, the last operation of a read that obtained a
    temporary copy is the removal of that copy. *)
Lemma read_table_any_unlinks_last path s tmp :
  fst (copy_to_temp env path s) = Return (Some tmp) ->
  exists ops, trace (snd (read_table_any env path s)) = (ops ++ [Unlink tmp])%list.
Proof.
  intros Hcopy. unfold read_table_any, bind.
  destruct (copy_to_temp env path s) as [r s1]. simpl in Hcopy. subst r.
  unfold try_finally.
  match goal with |- context [let (r, s') := ?body s1 in _] => destruct (body s1) as [r s2] end.
  simpl. now exists (trace s2).
Qed.

(** The debounce gate, as a proposition. *)
Lemma Qltb_lt a b : Qltb a b = true <-> (a < b)%Q.
Proof.
  unfold Qltb. rewrite negb_true_iff. split.
  - intros H. apply Qnot_le_lt. intros Hle. apply Qle_bool_iff in Hle. congruence.
  - intros H. destruct (Qle_bool b a) eqn:E; [|reflexivity].
    apply Qle_bool_iff in E. now apply Qle_not_lt in E.
Qed.

Lemma Qltb_ge a b : Qltb a b = false <-> (b <= a)%Q.
Proof.
  unfold Qltb. rewrite negb_false_iff. apply Qle_bool_iff.
Qed.

(** An accepted change stamps the clock reading and starts by announcing
    the change. *)
Lemma handle_change_accepted now path s :
  Qltb (now - _last_event s) DEBOUNCE_SECS = false ->
  _last_event (snd (handle_change env now path s)) = now
  /\ exists ops,
      trace (snd (handle_change env now path s))
      = (trace s ++ Print (ChangeDetected path) :: ops)%list.
Proof.
  intros Hgate. unfold handle_change. rewrite Hgate.
  set (rest := bind (read_table_any env path) _).
  assert (Hrest : grows rest).
  { apply grows_bind; [apply grows_read_table_any|].
    intros [df|]; [apply grows_send_first_row | apply grows_emit]. }
  unfold bind at 1. unfold print, emit. cbn [_last_event trace].
  destruct (Hrest (State now (trace s ++ [Print (ChangeDetected path)]))) as [L [ops T]].
  cbn [_last_event trace] in L, T. split; [exact L|].
  exists ops.
  change (trace (snd (rest (State now (trace s ++ [Print (ChangeDetected path)]))))
          = (trace s ++ Print (ChangeDetected path) :: ops)%list).
  now rewrite T, <- app_assoc.
Qed.

Lemma handle_change_dropped now path s :
  Qltb (now - _last_event s) DEBOUNCE_SECS = true ->
  handle_change env now path s = (Return tt, s).
Proof. intros Hgate. unfold handle_change. now rewrite Hgate. Qed.

End WatchFacts.

Section WatchClaims.

Import Py Watch Spec.
Local Open Scope string_scope.

(** C7, the code on a watched file whose decoding fails (stable file,
    copy made, both [read_csv] calls raising; likewise a workbook that
    [read_excel] rejects): [read_table_any] does not return the failure
    outcome [None], it raises, and [handle_change] lets the exception
    through to its caller; the temporary copy is removed all the same. *)
Theorem decode_failure_escapes_reader :
  let env := Env (fun _ _ => Some 10%Z) (fun _ _ _ => true) (fun _ _ => None)
                 (fun _ _ _ => None) (fun _ _ => true) (fun _ _ _ => PostFailed) in
  let tmp := MkPath (parent WATCH_FILE) "sample_contacts.tmpcopy.csv" in
  let book := MkPath "C:\data" "book.xlsx" in
  let read := read_table_any env WATCH_FILE (State 0 []) in
  let change := handle_change env 5 WATCH_FILE (State 0 []) in
  fst read = Raise (DecodeError tmp)
  /\ last (trace (snd read)) (Sleep 0) = Unlink tmp
  /\ fst change = Raise (DecodeError tmp)
  /\ fst (read_table_any env book (State 0 []))
     = Raise (DecodeError (MkPath "C:\data" "book.tmpcopy.xlsx")).
Proof. vm_compute. repeat split. Qed.

(** C8, as stated, fails: with the last acceptance at time 2, an event at
    time 3 is accepted although the elapsed time, exactly one debounce
    period, does not strictly exceed it. *)
Lemma debounce_accepts_at_exact_period :
  let env := Env (fun _ _ => None) (fun _ _ _ => false) (fun _ _ => None)
                 (fun _ _ _ => None) (fun _ _ => true) (fun _ _ _ => PostFailed) in
  let run := handle_change env 3 WATCH_FILE (State 2 []) in
  ~ (DEBOUNCE_SECS < 3 - 2)%Q
  /\ _last_event (snd run) = 3%Q
  /\ hd_error (trace (snd run)) = Some (Print (ChangeDetected WATCH_FILE)).
Proof.
  split; [intros H; vm_compute in H; discriminate|].
  vm_compute. split; reflexivity.
Qed.

Lemma after_later t0 t1 times :
  (DEBOUNCE_SECS <= t1 - t0)%Q -> after t1 times -> after t0 times.
Proof.
  unfold after, DEBOUNCE_SECS. intros H01 H. eapply Forall_impl; [|exact H].
  intros t Ht. simpl in Ht. lra.
Qed.

Lemma drive_spaced env path :
  forall nows s,
    after (_last_event s) (fst (drive env path nows s))
    /\ spaced (fst (drive env path nows s)).
Proof.
  induction nows as [|now later IH]; intros s; simpl.
  - split; [constructor | exact I].
  - destruct (Qltb (now - _last_event s) DEBOUNCE_SECS) eqn:Hgate.
    + rewrite (handle_change_dropped env now path s Hgate).
      rewrite Nat.ltb_irrefl.
      specialize (IH s). destruct (drive env path later s) as [acc s']. exact IH.
    + destruct (handle_change_accepted env now path s Hgate) as [Hlast _].
      apply Qltb_ge in Hgate.
      destruct (handle_change env now path s) as [r s1]. simpl in Hlast.
      specialize (IH s1). rewrite Hlast in IH.
      destruct r as [[]|e].
      * destruct (drive env path later s1) as [acc s2]. simpl in IH.
        destruct IH as [Hafter Hspaced].
        destruct (Nat.ltb _ _); simpl.
        -- split; [|now split].
           constructor; [exact Hgate | now apply (after_later Hgate)].
        -- split; [now apply (after_later Hgate) | exact Hspaced].
      * destruct (Nat.ltb _ _); simpl.
        -- split; [now repeat constructor | split; [constructor | exact I]].
        -- split; [constructor | exact I].
Qed.

(** C8, amended: an event is accepted exactly when the time elapsed since
    the last accepted event is at least the debounce period (equality
    included); an event that comes sooner is dropped, leaving the state and
    the trace as they were; so over any run of the handler, every accepted
    event comes at least one debounce period after the stored timestamp
    and after every event accepted before it. *)
Theorem debounce_spacing :
  (forall env now path s,
      (now - _last_event s < DEBOUNCE_SECS)%Q ->
      handle_change env now path s = (Return tt, s))
  /\ (forall env now path s,
         (DEBOUNCE_SECS <= now - _last_event s)%Q ->
         _last_event (snd (handle_change env now path s)) = now
         /\ exists ops,
             trace (snd (handle_change env now path s))
             = (trace s ++ Print (ChangeDetected path) :: ops)%list)
  /\ (forall env now path s,
         trace (snd (handle_change env now path s)) <> trace s ->
         (DEBOUNCE_SECS <= now - _last_event s)%Q)
  /\ (forall env path nows s,
         after (_last_event s) (fst (drive env path nows s))
         /\ spaced (fst (drive env path nows s))).
Proof.
  split; [|split; [|split]].
  - intros env now path s H. apply handle_change_dropped. now apply Qltb_lt.
  - intros env now path s H. apply handle_change_accepted. now apply Qltb_ge.
  - intros env now path s H.
    destruct (Qltb (now - _last_event s) DEBOUNCE_SECS) eqn:Hgate.
    + rewrite (handle_change_dropped env now path s Hgate) in H. now elim H.
    + now apply Qltb_ge.
  - intros env path nows s. apply drive_spaced.
Qed.

Lemma debounce_spacing_witness :
  let env := Env (fun _ _ => None) (fun _ _ _ => false) (fun _ _ => None)
                 (fun _ _ _ => None) (fun _ _ => true) (fun _ _ _ => PostFailed) in
  handle_change env (5 # 2) WATCH_FILE (State 2 []) = (Return tt, State 2 [])
  /\ _last_event (snd (handle_change env 3 WATCH_FILE (State 2 []))) = 3%Q.
Proof.
  intros env. split.
  - apply (proj1 debounce_spacing env (5 # 2)%Q WATCH_FILE (State 2 [])).
    reflexivity.
  - apply (proj1 (proj2 debounce_spacing) env 3%Q WATCH_FILE (State 2 [])).
    vm_compute. discriminate.
Defined.

End WatchClaims.

(* ===================================================================== *)
(** * Further properties of the code *)
(* ===================================================================== *)

(** ** Header normalisation *)

Section NormFacts.

Import Text Spec.

Lemma lower_char_not_upper (c : ascii) : isupper (lower_char c) = false.
Proof. destruct c as [[] [] [] [] [] [] [] []]; reflexivity. Qed.

Lemma lower_alnum_facts (c : ascii) :
  lower_alnum c = true -> isalnum c = true /\ isupper c = false /\ isspace c = false.
Proof. destruct c as [[] [] [] [] [] [] [] []]; cbv; intuition discriminate. Qed.

Lemma keep_alnum_lower_chars (s : string) :
  all_chars lower_alnum (keep_alnum (lower s)) = true.
Proof.
  induction s as [|c r IH]; simpl; [reflexivity|].
  destruct (isalnum (lower_char c)) eqn:E; [|exact IH].
  simpl. rewrite IH, andb_true_r. unfold lower_alnum.
  now rewrite E, lower_char_not_upper.
Qed.

Lemma lower_fixed (s : string) : all_chars lower_alnum s = true -> lower s = s.
Proof.
  induction s as [|c r IH]; simpl; [reflexivity|]. intros H.
  apply andb_true_iff in H. destruct H as [Hc Hr].
  destruct (lower_alnum_facts c Hc) as (_ & Hu & _).
  unfold lower_char. now rewrite Hu, IH.
Qed.

Lemma keep_alnum_fixed (s : string) : all_chars lower_alnum s = true -> keep_alnum s = s.
Proof.
  induction s as [|c r IH]; simpl; [reflexivity|]. intros H.
  apply andb_true_iff in H. destruct H as [Hc Hr].
  destruct (lower_alnum_facts c Hc) as (Ha & _ & _).
  now rewrite Ha, IH.
Qed.

Lemma rstrip_fixed (s : string) : all_chars lower_alnum s = true -> rstrip s = s.
Proof.
  induction s as [|c r IH]; simpl; [reflexivity|]. intros H.
  apply andb_true_iff in H. destruct H as [Hc Hr].
  destruct (lower_alnum_facts c Hc) as (_ & _ & Hs).
  rewrite (IH Hr). destruct r; [now rewrite Hs | reflexivity].
Qed.

Lemma strip_fixed (s : string) : all_chars lower_alnum s = true -> strip s = s.
Proof.
  intros H. unfold strip.
  assert (Hl : lstrip s = s).
  { destruct s as [|c r]; [reflexivity|]. simpl in *.
    apply andb_true_iff in H. destruct H as [Hc _].
    destruct (lower_alnum_facts c Hc) as (_ & _ & ->). reflexivity. }
  rewrite Hl. now apply rstrip_fixed.
Qed.


End NormFacts.

(** ** Shape of the mapped contact *)

Section ShapeFacts.

Import Py Main Spec.
Local Open Scope string_scope.

Lemma fold_left_idle (A B : Type) (f : A -> B -> A) (l : list B) (a : A) :
  (forall x, In x l -> f a x = a) -> fold_left f l a = a.
Proof.
  induction l as [|x r IH]; simpl; intros H; [reflexivity|].
  rewrite (H x) by now left. apply IH. intros y Hy. apply H. now right.
Qed.

Lemma scan_headers_no_values aliases prop hnorm :
  forall i (c : contact), scan_headers aliases [] prop i hnorm c = c.
Proof.
  induction hnorm as [|h rest IH]; intros i c; simpl; [reflexivity|].
  destruct (mem h (map _norm aliases)); [|apply IH].
  unfold assign_at. now destruct i.
Qed.

Lemma explicit_step_no_values hnorm (c : contact) item :
  explicit_step hnorm [] c item = c.
Proof.
  destruct item as [prop wanted]. simpl.
  destruct (index wanted hnorm) as [idx|]; [|reflexivity].
  unfold assign_at. now destruct idx.
Qed.

(** X2: the keys of a mapped contact are canonical fields, each at most
    once and in the order email, firstname, lastname, phone, company. *)
Theorem mapped_keys_canonical :
  forall headers values mapping,
    subseq (map fst (map_row_to_contact headers values mapping))
           ["email"; "firstname"; "lastname"; "phone"; "company"] = true
    /\ NoDup (map fst (map_row_to_contact headers values mapping)).
Proof.
  intros headers values mapping.
  unfold map_row_to_contact. cbv zeta.
  pose proof (resolved_keys headers (map text_of_cell values) mapping) as Hkeys.
  set (c := if truthy_mapping mapping then _ else _) in *.
  destruct (canonical_shape _ Hkeys) as (e & f & l & p & o & Hc).
  clearbody c. subst c.
  cbn [get set String.eqb Ascii.eqb Bool.eqb filter snd].
  destruct (Text.nonempty (Text.lower (Text.strip e))), (Text.nonempty f),
    (Text.nonempty l), (Text.nonempty p), (Text.nonempty o);
    (split; [reflexivity | simpl; repeat constructor; simpl; intuition discriminate]).
Qed.

(** X3: a row without headers, or without values, maps to the empty
    contact, with or without an explicit mapping. *)
Theorem map_row_without_headers_or_values :
  forall mapping,
    (forall values, map_row_to_contact [] values mapping = [])
    /\ (forall headers, map_row_to_contact headers [] mapping = []).
Proof.
  intros mapping. split.
  - intros values. unfold map_row_to_contact. cbv zeta.
    destruct (truthy_mapping mapping).
    + rewrite fold_left_idle; [reflexivity|]. now intros [prop wanted] _.
    + reflexivity.
  - intros headers. unfold map_row_to_contact. cbv zeta. cbn [map].
    destruct (truthy_mapping mapping).
    + rewrite fold_left_idle; [reflexivity|].
      intros item _. apply explicit_step_no_values.
    + rewrite fold_left_idle; [reflexivity|].
      intros [prop aliases] _. apply scan_headers_no_values.
Qed.

Lemma filter_nothing (A : Type) (f : A -> bool) (l : list A) :
  (forall x, In x l -> f x = false) -> filter f l = [].
Proof.
  induction l as [|x r IH]; simpl; intros H; [reflexivity|].
  rewrite (H x) by now left. apply IH. intros y Hy. apply H. now right.
Qed.

(** X4: an explicit mapping none of whose keys is a canonical field
    resolves nothing: the contact is empty even where the headers would
    match aliases. *)
Theorem mapping_with_unknown_keys_maps_nothing :
  forall headers values (m : dict string),
    m <> [] ->
    (forall k src, In (k, src) m -> has k blank_contact = false) ->
    map_row_to_contact headers values (Some m) = [].
Proof.
  intros headers values m Hm Hkeys. unfold map_row_to_contact.
  assert (Ht : truthy_mapping (Some m) = true) by (destruct m; [congruence | reflexivity]).
  rewrite Ht. cbv zeta.
  rewrite (@filter_nothing _ (fun kv : string * string => has (fst kv) blank_contact) m);
    [reflexivity|].
  intros [k src] Hin. simpl. now apply (Hkeys k src).
Qed.

Lemma mapping_with_unknown_keys_maps_nothing_witness :
  map_row_to_contact ["E-Mail"; "Name"] [Some "a@b.com"; Some "Ann"]
                     (Some [("mail", "E-Mail"); ("name", "Name")]) = [].
Proof.
  apply mapping_with_unknown_keys_maps_nothing.
  - discriminate.
  - intros k src [[= <- _]|[[= <- _]|[]]]; reflexivity.
Defined.

End ShapeFacts.

(** ** Shape of the fingerprint *)

Section DigestFacts.

Import Sha256 Spec.
Local Open Scope Z_scope.

Lemma compress_length h block : List.length h = 8%nat -> List.length (compress h block) = 8%nat.
Proof.
  intros H. unfold compress. rewrite length_map, length_combine, H. reflexivity.
Qed.

Lemma be_bytes_length n x : List.length (be_bytes n x) = n.
Proof. unfold be_bytes. now rewrite length_map, length_rev, length_seq. Qed.

Lemma be_bytes_range n x : Forall (fun b => 0 <= b < 256) (be_bytes n x).
Proof.
  unfold be_bytes. apply Forall_forall. intros b Hb.
  apply in_map_iff in Hb. destruct Hb as [i [<- _]].
  apply Z.mod_pos_bound. lia.
Qed.

Lemma digest_shape msg :
  List.length (digest msg) = 32%nat /\ Forall (fun b => 0 <= b < 256) (digest msg).
Proof.
  unfold digest.
  set (blocks := chunks _ 64 _).
  assert (Hlen : List.length (fold_left compress blocks H_init) = 8%nat).
  { apply fold_left_preserves; [|reflexivity].
    intros h b _ Hh. now apply compress_length. }
  set (h := fold_left compress blocks H_init) in *. clearbody h. split.
  - assert (H4 : List.length (flat_map (be_bytes 4) h) = (4 * List.length h)%nat).
    { clear Hlen. induction h as [|x r IH]; [reflexivity|].
      cbn [flat_map]. rewrite length_app, be_bytes_length, IH. simpl. lia. }
    rewrite H4, Hlen. reflexivity.
  - apply Forall_forall. intros b Hb. apply in_flat_map in Hb.
    destruct Hb as [x [_ Hb]].
    now apply (proj1 (Forall_forall _ _) (be_bytes_range 4 x)).
Qed.

Lemma hex_digit_lower_hex d : 0 <= d < 16 -> lower_hex (hex_digit d) = true.
Proof.
  intros H.
  assert (d = 0 \/ d = 1 \/ d = 2 \/ d = 3 \/ d = 4 \/ d = 5 \/ d = 6 \/ d = 7
          \/ d = 8 \/ d = 9 \/ d = 10 \/ d = 11 \/ d = 12 \/ d = 13 \/ d = 14 \/ d = 15)
    as Hd by lia.
  repeat (destruct Hd as [->|Hd]; [reflexivity|]). now subst.
Qed.

Lemma hex_shape bs :
  Forall (fun b => 0 <= b < 256) bs ->
  String.length (hex bs) = (2 * List.length bs)%nat
  /\ all_chars lower_hex (hex bs) = true.
Proof.
  induction 1 as [|b r Hb Hr [IHl IHc]]; [now split|].
  simpl. split; [rewrite IHl; lia|].
  rewrite IHc, !hex_digit_lower_hex; [reflexivity | |].
  - apply Z.mod_pos_bound. lia.
  - split; [apply Z.div_pos; lia | apply Z.div_lt_upper_bound; lia].
Qed.

(** X5: whatever the row, its fingerprint is a string of 64 characters,
    each a digit or one of [a] to [f]. *)
Theorem row_hash_is_64_hex_digits :
  forall headers values,
    String.length (Main.row_hash headers values) = 64%nat
    /\ all_chars lower_hex (Main.row_hash headers values) = true.
Proof.
  intros headers values. unfold Main.row_hash, hexdigest.
  destruct (digest_shape
              (update (update sha256 (Text.encode (Text.join "|" headers)))
                      (Text.encode (Text.join "|" (map Main.str values)))))
    as [Hlen Hrange].
  destruct (hex_shape Hrange) as [Hl Hc]. split; [|exact Hc].
  rewrite Hl, Hlen. reflexivity.
Qed.

End DigestFacts.

(** ** Audit log *)

Section LogFacts.

Import Py Main Spec.
Local Open Scope string_scope.

Lemma event_matches_key ss sh idx h ev :
  event_matches ss sh idx h ev = true ->
  (spreadsheet_id ev, sheet_name ev, row_index ev, ev_row_hash ev) = (ss, sh, idx, h).
Proof.
  unfold event_matches. intros H.
  apply andb_true_iff in H. destruct H as [H H4].
  apply andb_true_iff in H. destruct H as [H H3].
  apply andb_true_iff in H. destruct H as [H1 H2].
  apply String.eqb_eq in H1, H2, H4. apply Z.eqb_eq in H3. congruence.
Qed.





End LogFacts.

(** ** Outcomes of the retrying transport *)

Section RetryOutcomes.

Import Py Main Spec.
Local Open Scope string_scope.

Ltac next_attempt crm :=
  match goal with
  | |- context [crm ?t ?m ?u ?kw] =>
      let r := fresh "r" in
      let E := fresh "E" in
      destruct (crm t m u kw) as [r|];
      [destruct (retryable r) eqn:E|];
      cbn [fst snd events traffic]
  end.

Ltac close_attempt :=
  cbn [fst snd events traffic];
  eexists; split; [rewrite <- ?app_assoc; reflexivity|];
  cbn [app];
  repeat split;
  try reflexivity; try (vm_compute; lia);
  try (match goal with E : retryable _ = _ |- _ => rewrite E end;
       repeat split; reflexivity).


End RetryOutcomes.

(** ** Errors and requests of the CRM client *)

Section ClientFacts.

Import Py Main Spec.
Local Open Scope string_scope.

Variable cfg : config.
Variable crm : upstream.

Lemma raises_only_ret (P : exn -> Prop) (A : Type) (a : A) : raises_only P (ret a).
Proof. intros w e H. discriminate H. Qed.

Lemma raises_only_raise (P : exn -> Prop) (A : Type) (e : exn) :
  P e -> raises_only P (@raise A e).
Proof. intros H w e' [= <-]. exact H. Qed.

Lemma raises_only_bind (P : exn -> Prop) (A B : Type) (c : M A) (k : A -> M B) :
  raises_only P c -> (forall a, raises_only P (k a)) -> raises_only P (bind c k).
Proof.
  intros Hc Hk w e. unfold bind. specialize (Hc w).
  destruct (c w) as [[a|e'] w1]; simpl in *.
  - apply Hk.
  - intros [= <-]. now apply Hc.
Qed.

Lemma retry_loop_raises method url kw :
  forall attempts r0 w e,
    fst (retry_loop crm attempts r0 method url kw w) = Raise e ->
    e = RequestException \/ (attempts = [] /\ r0 = None).
Proof.
  induction attempts as [|attempt rest IH]; intros r0 w e; simpl.
  - destruct r0; [discriminate|]. intros _. now right.
  - unfold bind at 1. unfold request.
    destruct (crm (traffic w) method url kw) as [r|]; simpl.
    + destruct (retryable r); [|discriminate].
      unfold bind, sleep. simpl. intros H. apply IH in H.
      destruct H as [H|[_ H]]; [now left | discriminate].
    + intros [= <-]. now left.
Qed.

Lemma request_retry_raises method url kw :
  raises_only (fun e => e = RequestException) (_request_retry crm method url kw).
Proof.
  intros w e H. apply retry_loop_raises in H.
  destruct H as [H|[H _]]; [exact H | discriminate].
Qed.

Lemma client_error_transport e : e = RequestException -> client_error e.
Proof. intros ->. now left. Qed.

Lemma hs_headers_raises : raises_only client_error (_hs_headers cfg).
Proof.
  unfold _hs_headers. destruct (Text.nonempty _); [apply raises_only_ret|].
  apply raises_only_raise. right. right. now left.
Qed.

Lemma request_retry_client_error method url kw :
  raises_only client_error (_request_retry crm method url kw).
Proof.
  intros w e H. apply client_error_transport.
  exact (@request_retry_raises method url kw w e H).
Qed.

Lemma bad_gateway detail : client_error (HTTPException 502 detail).
Proof. right. right. right. now exists detail. Qed.

Lemma find_raises email :
  raises_only client_error (hubspot_find_contact_by_email cfg crm email).
Proof.
  unfold hubspot_find_contact_by_email.
  apply raises_only_bind; [apply hs_headers_raises|]. intros hs.
  apply raises_only_bind; [apply request_retry_client_error|]. intros r.
  destruct (400 <=? status_code r)%Z; [apply raises_only_raise, bad_gateway|].
  destruct (json r); [apply raises_only_ret|].
  apply raises_only_raise. right. now left.
Qed.

Lemma create_raises props :
  raises_only client_error (hubspot_create_contact cfg crm props).
Proof.
  unfold hubspot_create_contact.
  apply raises_only_bind; [apply hs_headers_raises|]. intros hs.
  apply raises_only_bind; [apply request_retry_client_error|]. intros r.
  destruct (400 <=? status_code r)%Z; [apply raises_only_raise, bad_gateway|].
  destruct (json r); [apply raises_only_ret|].
  apply raises_only_raise. right. now left.
Qed.

Lemma update_raises cid props :
  raises_only client_error (hubspot_update_contact cfg crm cid props).
Proof.
  unfold hubspot_update_contact.
  apply raises_only_bind; [apply hs_headers_raises|]. intros hs.
  apply raises_only_bind; [apply request_retry_client_error|]. intros r.
  destruct (400 <=? status_code r)%Z; [apply raises_only_raise, bad_gateway|].
  apply raises_only_ret.
Qed.

Lemma upsert_raises (c : contact) :
  raises_only client_error (upsert_contact_to_hubspot cfg crm c).
Proof.
  unfold upsert_contact_to_hubspot.
  destruct (negb _); [apply raises_only_ret|].
  apply raises_only_bind; [apply find_raises|]. intros [[|a cid]|].
  - apply raises_only_bind; [apply create_raises | intros; apply raises_only_ret].
  - apply raises_only_bind; [apply update_raises | intros; apply raises_only_ret].
  - apply raises_only_bind; [apply create_raises | intros; apply raises_only_ret].
Qed.

(** A response that is not retryable comes back right after the request
    that got it. *)
Lemma retry_loop_last_request method url kw :
  forall attempts r0 w r w',
    retry_loop crm attempts r0 method url kw w = (Return r, w') ->
    retryable r = false ->
    (exists pre, traffic w' = (traffic w ++ pre ++ [Request method url kw])%list)
    \/ r0 = Some r.
Proof.
  induction attempts as [|attempt rest IH]; intros r0 w r w'; simpl.
  - destruct r0 as [r1|]; [|discriminate]. intros [= -> _] _. now right.
  - unfold bind at 1. unfold request.
    destruct (crm (traffic w) method url kw) as [r1|]; [|discriminate].
    destruct (retryable r1) eqn:E1.
    + unfold bind, sleep. simpl. intros H Hr.
      destruct (IH _ _ _ _ H Hr) as [[pre Hpre]|[= ->]]; [|congruence].
      left. exists ([Request method url kw; Sleep (backoff attempt)] ++ pre)%list.
      rewrite Hpre. simpl. now rewrite <- !app_assoc.
    + intros [= <- <-] _. left. now exists [].
Qed.

Lemma below_400_not_retryable r : (400 <=? status_code r)%Z = false -> retryable r = false.
Proof.
  intros H. apply Z.leb_gt in H. unfold retryable.
  destruct (Z.ltb_spec (status_code r) 500); [|lia].
  destruct (Z.eqb_spec (status_code r) 429); [lia | reflexivity].
Qed.

Lemma hs_headers_pure w : snd (_hs_headers cfg w) = w.
Proof. unfold _hs_headers. now destruct (Text.nonempty _). Qed.

Lemma update_ends_with_patch cid props w :
  fst (hubspot_update_contact cfg crm cid props w) = Return tt ->
  exists pre hs,
    traffic (snd (hubspot_update_contact cfg crm cid props w))
    = (pre ++ [Request "PATCH" (HUBSPOT_API_BASE ++ "/crm/v3/objects/contacts/" ++ cid)
                       (Kw hs (Properties props))])%list.
Proof.
  unfold hubspot_update_contact. unfold bind at 1 3.
  pose proof (hs_headers_pure w) as Hw.
  destruct (_hs_headers cfg w) as [[hs|e] w0]; simpl in Hw; subst w0; [|discriminate].
  unfold bind.
  destruct (_request_retry crm "PATCH" _ _ w) as [[r|e] w1] eqn:Erun; simpl;
    [|discriminate].
  destruct (400 <=? status_code r)%Z eqn:E; simpl; [discriminate|]. intros _.
  destruct (retry_loop_last_request _ _ _ _ _ _ Erun (below_400_not_retryable r E))
    as [[pre Hpre]|]; [|discriminate].
  exists (traffic w ++ pre)%list, hs. now rewrite Hpre, app_assoc.
Qed.

Lemma create_ends_with_post props w new_id :
  fst (hubspot_create_contact cfg crm props w) = Return new_id ->
  exists pre hs,
    traffic (snd (hubspot_create_contact cfg crm props w))
    = (pre ++ [Request "POST" (HUBSPOT_API_BASE ++ "/crm/v3/objects/contacts")
                       (Kw hs (Properties props))])%list.
Proof.
  unfold hubspot_create_contact. unfold bind at 1 3.
  pose proof (hs_headers_pure w) as Hw.
  destruct (_hs_headers cfg w) as [[hs|e] w0]; simpl in Hw; subst w0; [|discriminate].
  unfold bind.
  destruct (_request_retry crm "POST" _ _ w) as [[r|e] w1] eqn:Erun; simpl;
    [|discriminate].
  destruct (400 <=? status_code r)%Z eqn:E; simpl; [discriminate|].
  destruct (json r); simpl; [|discriminate]. intros _.
  destruct (retry_loop_last_request _ _ _ _ _ _ Erun (below_400_not_retryable r E))
    as [[pre Hpre]|]; [|discriminate].
  exists (traffic w ++ pre)%list, hs. now rewrite Hpre, app_assoc.
Qed.

End ClientFacts.

Section ClientProperties.

Import Py Main Spec.
Local Open Scope string_scope.

Lemma ingest_rows_unauthorised cfg crm p secret w :
  secret_matches cfg secret = false ->
  ingest_rows cfg crm p secret w = (Raise (HTTPException 401 "Invalid secret"), w).
Proof. intros Hs. unfold ingest_rows. now rewrite Hs. Qed.





(** X11: the upsert answers [skipped] exactly when the contact has no
    e-mail or one that is blank once trimmed, and then the world is left
    as it was: nothing is sent. *)
Theorem upsert_skips_exactly_without_email :
  forall cfg crm (c : contact) w,
    let email :=
      Text.lower (Text.strip (match get "email" c with Some e => e | None => "" end)) in
    (email = "" ->
     upsert_contact_to_hubspot cfg crm c w = (Return (Skipped "missing email"), w))
    /\ (forall reason,
           fst (upsert_contact_to_hubspot cfg crm c w) = Return (Skipped reason) ->
           email = "").
Proof.
  intros cfg crm c w email. split.
  - intros He. unfold upsert_contact_to_hubspot. fold email. now rewrite He.
  - intros reason Hres. destruct email as [|a b] eqn:E; [reflexivity|].
    pose proof (@upsert_outcome cfg crm c w) as Hout.
    fold email in Hout. rewrite E in Hout. specialize (Hout eq_refl).
    now rewrite Hres in Hout.
Qed.

Lemma upsert_skips_exactly_without_email_witness :
  let cfg := Config "s3cret" "token" in
  let crm : upstream := fun _ _ _ _ => NoReply in
  upsert_contact_to_hubspot cfg crm [("email", "   "); ("phone", "555")] (World [] [])
  = (Return (Skipped "missing email"), World [] []).
Proof.
  intros cfg crm.
  apply (proj1 (upsert_skips_exactly_without_email
                  cfg crm [("email", "   "); ("phone", "555")] (World [] []))).
  reflexivity.
Defined.

Lemma upsert_run cfg crm (c : contact) w res w' :
  upsert_contact_to_hubspot cfg crm c w = (Return res, w') ->
  let props := filter (fun kv => Text.nonempty (snd kv)) c in
  match res with
  | Updated cid =>
      cid <> ""
      /\ exists pre hs,
          traffic w'
          = (pre ++ [Request "PATCH"
                             (HUBSPOT_API_BASE ++ "/crm/v3/objects/contacts/" ++ cid)
                             (Kw hs (Properties props))])%list
  | Created _ =>
      exists pre hs,
        traffic w'
        = (pre ++ [Request "POST" (HUBSPOT_API_BASE ++ "/crm/v3/objects/contacts")
                           (Kw hs (Properties props))])%list
  | Skipped _ => True
  end.
Proof.
  intros Hrun props. unfold upsert_contact_to_hubspot in Hrun. fold props in Hrun.
  destruct (negb _); [injection Hrun as <- _; exact I|].
  unfold bind in Hrun.
  destruct (hubspot_find_contact_by_email cfg crm _ w) as [[[[|a cid]|]|e] w1];
    try discriminate.
  - pose proof (@create_ends_with_post cfg crm props w1) as Hpost.
    destruct (hubspot_create_contact cfg crm props w1) as [[new_id|e] w2];
      [|discriminate].
    injection Hrun as <- <-. now apply (Hpost new_id).
  - pose proof (@update_ends_with_patch cfg crm (String a cid) props w1) as Hpatch.
    destruct (hubspot_update_contact cfg crm (String a cid) props w1) as [[[]|e] w2];
      [|discriminate].
    injection Hrun as <- <-. split; [discriminate | now apply Hpatch].
  - pose proof (@create_ends_with_post cfg crm props w1) as Hpost.
    destruct (hubspot_create_contact cfg crm props w1) as [[new_id|e] w2];
      [|discriminate].
    injection Hrun as <- <-. now apply (Hpost new_id).
Qed.

(** X12: when the upsert answers [updated] the id is not empty and the
    last thing sent is a PATCH of the contact of that id; when it answers
    [created] the last thing sent is a POST to the contacts collection; in
    both cases the request carries the non-empty fields of the contact. *)
Theorem upsert_result_matches_last_request :
  forall cfg crm (c : contact) w,
    let props := filter (fun kv => Text.nonempty (snd kv)) c in
    let w' := snd (upsert_contact_to_hubspot cfg crm c w) in
    (forall cid,
        fst (upsert_contact_to_hubspot cfg crm c w) = Return (Updated cid) ->
        cid <> ""
        /\ exists pre hs,
            traffic w'
            = (pre ++ [Request "PATCH"
                               (HUBSPOT_API_BASE ++ "/crm/v3/objects/contacts/" ++ cid)
                               (Kw hs (Properties props))])%list)
    /\ (forall new_id,
           fst (upsert_contact_to_hubspot cfg crm c w) = Return (Created new_id) ->
           exists pre hs,
             traffic w'
             = (pre ++ [Request "POST" (HUBSPOT_API_BASE ++ "/crm/v3/objects/contacts")
                                (Kw hs (Properties props))])%list).
Proof.
  intros cfg crm c w props w'. subst w'.
  destruct (upsert_contact_to_hubspot cfg crm c w) as [r w'] eqn:Erun.
  cbn [fst snd]. split.
  - intros cid ->. exact (upsert_run _ _ _ _ Erun).
  - intros new_id ->. exact (upsert_run _ _ _ _ Erun).
Qed.

Lemma upsert_result_matches_last_request_witness :
  let cfg := Config "s3cret" "token" in
  let crm : upstream :=
    fun _ _ _ _ => Replied (Response 200 "" (Some (Body [Some "77"] None))) in
  let c : contact := [("email", "a@b.com"); ("company", "")] in
  "77" <> ""
  /\ exists pre hs,
      traffic (snd (upsert_contact_to_hubspot cfg crm c (World [] [])))
      = (pre ++ [Request "PATCH" (HUBSPOT_API_BASE ++ "/crm/v3/objects/contacts/" ++ "77")
                         (Kw hs (Properties [("email", "a@b.com")]))])%list.
Proof.
  intros cfg crm c.
  apply (proj1 (upsert_result_matches_last_request cfg crm c (World [] [])) "77").
  vm_compute. reflexivity.
Defined.

End ClientProperties.

(** ** Paths of the ingestion endpoint *)

Section IngestPaths.

Import Py Main Spec.
Local Open Scope string_scope.

Lemma upsert_traffic_grows cfg crm (c : contact) w :
  exists sent,
    traffic (snd (upsert_contact_to_hubspot cfg crm c w)) = (traffic w ++ sent)%list.
Proof.
  destruct (@emits_upsert (fun _ => True) (fun _ => I) (fun _ _ _ _ => I) _
                          (fun _ _ _ => I) cfg crm c eq_refl w) as [_ (sent & H & _)].
  now exists sent.
Qed.

(** The three ways out of a call that passed the secret and found the
    row new. *)
Lemma ingest_rows_fresh cfg crm p secret w :
  secret_matches cfg secret = true ->
  existsb (for_row p) (events w) = false ->
  let c := map_row_to_contact (match headers p with Some h => h | None => [] end)
                              (values p) (mapping p) in
  ingest_rows cfg crm p secret w
  = if has "email" c then
      match upsert_contact_to_hubspot cfg crm c w with
      | (Return res, w1) =>
          (Return (Upserted res),
           World (events w ++ [event_for p (action_of res) (id_of res) (StrOf c)])
                 (traffic w1))
      | (Raise e, w1) =>
          (Raise e, World (events w ++ [event_for p "error" "" (ReprOf e)]) (traffic w1))
      end
    else
      (Return (IsSkipped "missing email"),
       World (events w ++ [event_for p "skipped" "" (Literal "missing email")]) (traffic w)).
Proof.
  intros Hs Hseen c. unfold ingest_rows. rewrite Hs. cbn [negb].
  unfold bind at 1. unfold already_processed. unfold for_row in Hseen. rewrite Hseen.
  unfold try_except. fold c. unfold has.
  destruct (get "email" c) as [addr|] eqn:Eaddr; [|reflexivity].
  destruct (mapped_email_normal _ _ _ Eaddr) as [_ Hne]. rewrite Hne. cbn [negb].
  unfold bind at 1.
  pose proof (upsert_keeps_events cfg crm c w) as Hev.
  destruct (upsert_contact_to_hubspot cfg crm c w) as [[res|e] w1]; simpl in Hev.
  - unfold bind, log_event, ret. simpl. now rewrite Hev.
  - unfold bind, log_event, raise. simpl. now rewrite Hev.
Qed.







End IngestPaths.

(** ** Operations of the watcher *)

Section WatchOps.

Import Py Watch Spec.
Local Open Scope string_scope.

Variable env : environment.
Variable P : op -> Prop.

Lemma adds_ret (A : Type) (a : A) : adds P (ret a).
Proof.
  intros s. split; [reflexivity|]. exists []. split; [now rewrite app_nil_r | constructor].
Qed.

Lemma adds_raise (A : Type) (e : exn) : adds P (@raise A e).
Proof.
  intros s. split; [reflexivity|]. exists []. split; [now rewrite app_nil_r | constructor].
Qed.

Lemma adds_step (A : Type) (c : W A) (s : state) (k : state -> state) :
  adds P c ->
  (forall s1, _last_event (k s1) = _last_event s1
              /\ exists ops, trace (k s1) = (trace s1 ++ ops)%list /\ Forall P ops) ->
  _last_event (k (snd (c s))) = _last_event s
  /\ exists ops, trace (k (snd (c s))) = (trace s ++ ops)%list /\ Forall P ops.
Proof.
  intros Hc Hk. destruct (Hc s) as [L1 (o1 & T1 & F1)].
  destruct (Hk (snd (c s))) as [L2 (o2 & T2 & F2)]. split; [congruence|].
  exists (o1 ++ o2)%list. split; [now rewrite T2, T1, app_assoc|].
  apply Forall_app. now split.
Qed.

Lemma adds_bind (A B : Type) (c : W A) (k : A -> W B) :
  adds P c -> (forall a, adds P (k a)) -> adds P (bind c k).
Proof.
  intros Hc Hk s. unfold bind.
  destruct (c s) as [[a|e] s1] eqn:E.
  - pose proof (adds_step s (fun s1 => snd (k a s1)) Hc (Hk a)) as H.
    now rewrite E in H.
  - pose proof (Hc s) as H. now rewrite E in H.
Qed.

Lemma adds_try_except (A : Type) (body : W A) (handler : exn -> W A) :
  adds P body -> (forall e, adds P (handler e)) -> adds P (try_except body handler).
Proof.
  intros Hb Hh s. unfold try_except.
  destruct (body s) as [[a|e] s1] eqn:E.
  - pose proof (Hb s) as H. now rewrite E in H.
  - pose proof (adds_step s (fun s1 => snd (handler e s1)) Hb (Hh e)) as H.
    now rewrite E in H.
Qed.

Lemma adds_try_finally (A : Type) (body : W A) (cleanup : W unit) :
  adds P body -> adds P cleanup -> adds P (try_finally body cleanup).
Proof.
  intros Hb Hc s. unfold try_finally.
  pose proof (adds_step s (fun s1 => snd (cleanup s1)) Hb Hc) as H.
  now destruct (body s).
Qed.

Lemma adds_perform (A : Type) (ask : list op -> A) (o : op) : P o -> adds P (perform ask o).
Proof.
  intros H s. split; [reflexivity|]. exists [o]. split; [reflexivity | now constructor].
Qed.

Lemma adds_emit (o : op) : P o -> adds P (emit o).
Proof.
  intros H s. split; [reflexivity|]. exists [o]. split; [reflexivity | now constructor].
Qed.

Lemma adds_stable_loop path checks interval :
  P (Stat path) -> P (Sleep interval) ->
  forall polls last_size stable,
    adds P (stable_loop env polls path checks interval last_size stable).
Proof.
  intros Hstat Hsleep.
  induction polls as [|more IH]; intros last_size stable; simpl; [apply adds_ret|].
  apply adds_bind; [now apply adds_perform|]. intros [size|].
  - destruct (_ && _).
    + destruct (_ <=? _)%Z; [apply adds_ret|].
      apply adds_bind; [now apply adds_emit | intros _; apply IH].
    + apply adds_bind; [now apply adds_emit | intros _; apply IH].
  - apply adds_bind; [now apply adds_emit | intros _; apply IH].
Qed.

Lemma adds_copy_loop path temp_path :
  P (CopyFile path temp_path) -> P (Sleep RETRY_DELAY_SECS) ->
  forall tries, adds P (copy_loop env tries path temp_path).
Proof.
  intros Hcopy Hsleep.
  induction tries as [|more IH]; simpl; [apply adds_ret|].
  apply adds_bind; [now apply adds_perform|]. intros [|]; [apply adds_ret|].
  apply adds_bind; [now apply adds_emit | intros _; apply IH].
Qed.

End WatchOps.

Section WatchReads.

Import Py Watch Spec.
Local Open Scope string_scope.

Variable env : environment.

Lemma count_ops_app f t1 t2 : count_ops f (t1 ++ t2) = count_ops f t1 + count_ops f t2.
Proof. unfold count_ops. now rewrite filter_app, length_app. Qed.

Lemma stable_loop_returns path checks interval :
  forall polls last_size stable s,
  exists b, fst (stable_loop env polls path checks interval last_size stable s) = Return b.
Proof.
  induction polls as [|more IH]; intros last_size stable s; simpl; [now exists false|].
  unfold bind at 1. unfold perform.
  destruct (stat_size env (trace s) path) as [size|].
  - destruct (_ && _).
    + destruct (_ <=? _)%Z; [now exists true|]. unfold bind, sleep, emit. apply IH.
    + unfold bind, sleep, emit. apply IH.
  - unfold bind, sleep, emit. apply IH.
Qed.

Lemma stable_loop_polls path checks interval :
  forall polls last_size stable s,
  exists ops,
    trace (snd (stable_loop env polls path checks interval last_size stable s))
    = (trace s ++ ops)%list
    /\ count_ops is_stat ops <= polls.
Proof.
  induction polls as [|more IH]; intros last_size stable s; simpl.
  - exists []. split; [now rewrite app_nil_r | reflexivity].
  - unfold bind at 1. unfold perform.
    assert (Hnext : forall l st,
               exists ops,
                 trace (snd (stable_loop env more path checks interval l st
                               (State (_last_event s)
                                      ((trace s ++ [Stat path]) ++ [Sleep interval]))))
                 = (trace s ++ ops)%list
                 /\ count_ops is_stat ops <= S more).
    { intros l st. destruct (IH l st (State (_last_event s)
                                          ((trace s ++ [Stat path]) ++ [Sleep interval])))
        as (ops & T & C).
      exists ([Stat path; Sleep interval] ++ ops)%list. split.
      - rewrite T. cbn [trace]. now rewrite <- !app_assoc.
      - rewrite count_ops_app. change (count_ops is_stat [Stat path; Sleep interval]) with 1.
        lia. }
    destruct (stat_size env (trace s) path) as [size|].
    + destruct (_ && _).
      * destruct (_ <=? _)%Z; [|unfold bind, sleep, emit; apply Hnext].
        exists [Stat path]. split; [reflexivity|].
        change (count_ops is_stat [Stat path]) with 1. lia.
      * unfold bind, sleep, emit. apply Hnext.
    + unfold bind, sleep, emit. apply Hnext.
Qed.


End WatchReads.

Section WatchStability.

Import Py Watch Spec.
Local Open Scope string_scope.

Variable env : environment.
Variable path : Path.

Lemma stable_loop_never checks interval :
  (forall t, stat_size env t path = None
             \/ exists z, stat_size env t path = Some z /\ (z <= 0)%Z) ->
  forall polls last_size stable s,
    stable_loop env polls path checks interval last_size stable s
    = (Return false,
       State (_last_event s)
             (trace s ++ List.concat (repeat [Stat path; Sleep interval] polls))).
Proof.
  intros Hnever.
  induction polls as [|more IH]; intros last_size stable s; simpl.
  - rewrite app_nil_r. now destruct s.
  - unfold bind at 1. unfold perform.
    destruct (Hnever (trace s)) as [->|(z & -> & Hz)].
    + unfold bind, sleep, emit. rewrite IH. cbn [_last_event trace].
      now rewrite <- !app_assoc.
    + destruct (Z.ltb_spec 0 z) as [?|_]; [lia|]. rewrite andb_false_r.
      unfold bind, sleep, emit. rewrite IH. cbn [_last_event trace].
      now rewrite <- !app_assoc.
Qed.

Lemma stable_loop_new_size checks interval more last_size stable s n :
  stat_size env (trace s) path = Some n ->
  n <> last_size ->
  stable_loop env (S more) path checks interval last_size stable s
  = stable_loop env more path checks interval n 0%Z
                (State (_last_event s) ((trace s ++ [Stat path]) ++ [Sleep interval])).
Proof.
  intros Hs Hne. simpl. unfold bind at 1. unfold perform. rewrite Hs.
  destruct (Z.eqb_spec n last_size) as [?|_]; [contradiction|]. reflexivity.
Qed.

Lemma stable_loop_same_size checks interval more stable s n :
  stat_size env (trace s) path = Some n ->
  (0 < n)%Z ->
  stable_loop env (S more) path checks interval n stable s
  = if (checks <=? stable + 1)%Z
    then (Return true, State (_last_event s) (trace s ++ [Stat path]))
    else stable_loop env more path checks interval n (stable + 1)%Z
                     (State (_last_event s) ((trace s ++ [Stat path]) ++ [Sleep interval])).
Proof.
  intros Hs Hpos. simpl. unfold bind at 1. unfold perform. rewrite Hs.
  rewrite Z.eqb_refl. destruct (Z.ltb_spec 0 n) as [_|?]; [|lia]. simpl.
  now destruct (checks <=? stable + 1)%Z.
Qed.

(** X17: a file that is missing or empty at every poll is never taken
    for stable: the wait gives up with [False] after 40 polls, each
    followed by a sleep.  A file whose size is the same positive number at
    every poll is taken for stable at the fourth poll, after three
    sleeps. *)
Theorem wait_until_stable_edge_cases :
  forall s,
    ((forall t, stat_size env t path = None
                \/ exists z, stat_size env t path = Some z /\ (z <= 0)%Z) ->
     wait_until_stable env path s
     = (Return false,
        State (_last_event s)
              (trace s ++ List.concat (repeat [Stat path; Sleep (3 # 10)] 40))))
    /\ (forall n,
           (0 < n)%Z ->
           (forall t, stat_size env t path = Some n) ->
           wait_until_stable env path s
           = (Return true,
              State (_last_event s)
                    (trace s ++ [Stat path; Sleep (3 # 10); Stat path; Sleep (3 # 10);
                                 Stat path; Sleep (3 # 10); Stat path]))).
Proof.
  intros s. split.
  - intros Hnever. unfold wait_until_stable. now apply stable_loop_never.
  - intros n Hpos Hsame. unfold wait_until_stable.
    change READ_RETRIES with (S (S (S (S 36)))).
    rewrite (@stable_loop_new_size 3%Z (3 # 10)%Q _ (-1)%Z 0%Z s n (Hsame _)) by lia.
    rewrite (@stable_loop_same_size 3%Z (3 # 10)%Q _ 0%Z _ n (Hsame _) Hpos).
    cbn [Z.leb Z.add Z.compare Pos.compare Pos.compare_cont Pos.add Pos.succ].
    rewrite (@stable_loop_same_size 3%Z (3 # 10)%Q _ 1%Z _ n (Hsame _) Hpos).
    cbn [Z.leb Z.add Z.compare Pos.compare Pos.compare_cont Pos.add Pos.succ].
    rewrite (@stable_loop_same_size 3%Z (3 # 10)%Q _ 2%Z _ n (Hsame _) Hpos).
    cbn [Z.leb Z.add Z.compare Pos.compare Pos.compare_cont Pos.add Pos.succ
         _last_event trace].
    now rewrite <- !app_assoc.
Qed.

End WatchStability.

Section WatchStabilityWitness.

Import Py Watch Spec.
Local Open Scope string_scope.

Lemma wait_until_stable_edge_cases_witness :
  let growing := Env (fun t _ => Some 0%Z) (fun _ _ _ => true) (fun _ _ => None)
                     (fun _ _ _ => None) (fun _ _ => true) (fun _ _ _ => PostFailed) in
  let settled := Env (fun t _ => Some 120%Z) (fun _ _ _ => true) (fun _ _ => None)
                     (fun _ _ _ => None) (fun _ _ => true) (fun _ _ _ => PostFailed) in
  fst (wait_until_stable growing WATCH_FILE (State 0 [])) = Return false
  /\ fst (wait_until_stable settled WATCH_FILE (State 0 [])) = Return true.
Proof.
  intros growing settled. split.
  - rewrite (proj1 (wait_until_stable_edge_cases growing WATCH_FILE (State 0 []))).
    + reflexivity.
    + intros t. right. exists 0%Z. split; [reflexivity | lia].
  - rewrite (proj2 (wait_until_stable_edge_cases settled WATCH_FILE (State 0 [])) 120%Z).
    + reflexivity.
    + lia.
    + reflexivity.
Defined.

End WatchStabilityWitness.

(** ** The temporary copy *)

Section TempCopy.

Import Py Watch Spec.
Local Open Scope string_scope.

Lemma length_app_string (a b : string) :
  String.length (a ++ b) = String.length a + String.length b.
Proof. induction a as [|c r IH]; simpl; [reflexivity | now rewrite IH]. Qed.

Lemma app_assoc_string (a b c : string) : (a ++ b) ++ c = a ++ b ++ c.
Proof. induction a as [|x r IH]; simpl; [reflexivity | now rewrite IH]. Qed.

Lemma substring_prefix (a b : string) : substring 0 (String.length a) (a ++ b) = a.
Proof.
  induction a as [|c r IH]; simpl.
  - now destruct b.
  - now rewrite IH.
Qed.

Lemma from_last_dot_tail (r t : string) :
  from_last_dot r = Some t -> from_last_dot t = Some t /\ exists pre, r = pre ++ t.
Proof.
  revert t. induction r as [|c r IH]; intros t; simpl; [discriminate|].
  destruct (from_last_dot r) as [t0|] eqn:E.
  - intros [= <-]. destruct (IH t0 eq_refl) as [Hfix [pre ->]].
    split; [exact Hfix|]. now exists (String c pre).
  - destruct (Ascii.eqb c ".") eqn:Ec; [|discriminate]. intros [= <-].
    split; [simpl; now rewrite E, Ec | now exists ""].
Qed.

Lemma from_last_dot_app (y t : string) :
  from_last_dot t = Some t -> from_last_dot (y ++ t) = Some t.
Proof.
  intros H. induction y as [|c r IH]; simpl; [exact H | now rewrite IH].
Qed.

Lemma app_nil_string (x : string) : x ++ "" = x.
Proof. induction x as [|c r IH]; simpl; [reflexivity | now rewrite IH]. Qed.

Lemma substring_all (x : string) : substring 0 (String.length x) x = x.
Proof. induction x as [|c r IH]; simpl; [reflexivity | now rewrite IH]. Qed.

(** A name is its stem followed by its suffix. *)
Lemma stem_suffix (p : Path) : stem p ++ suffix p = name p.
Proof.
  unfold stem, suffix. destruct (name p) as [|c r] eqn:En; [reflexivity|].
  destruct (from_last_dot r) as [t|] eqn:E.
  - destruct (Nat.ltb 1 (String.length t)).
    + destruct (from_last_dot_tail _ E) as [_ [pre ->]].
      change (String c (pre ++ t)) with (String c pre ++ t).
      rewrite length_app_string, Nat.add_sub, substring_prefix. reflexivity.
    + change (String.length "") with 0.
      now rewrite Nat.sub_0_r, substring_all, app_nil_string.
  - change (String.length "") with 0.
    now rewrite Nat.sub_0_r, substring_all, app_nil_string.
Qed.

(** X18: the temporary copy lies in the directory of the watched file,
    its name is never the name of the watched file (it is 8 characters
    longer), and when the watched file has a suffix the copy has the same
    one. *)
Theorem temp_copy_name_keeps_suffix :
  forall path,
    let temp_path := with_name path (stem path ++ ".tmpcopy" ++ suffix path) in
    parent temp_path = parent path
    /\ String.length (name temp_path) = String.length (name path) + 8
    /\ temp_path <> path
    /\ (suffix path <> "" -> suffix temp_path = suffix path).
Proof.
  intros path temp_path.
  assert (Hlen : String.length (name temp_path) = String.length (name path) + 8).
  { subst temp_path. cbn [with_name name].
    rewrite <- (stem_suffix path).
    rewrite !length_app_string. simpl. lia. }
  split; [reflexivity|]. split; [exact Hlen|]. split.
  - intros Heq. rewrite Heq in Hlen. lia.
  - intros Hsuf. subst temp_path. unfold suffix at 1. cbn [with_name name].
    pose proof (stem_suffix path) as Hname.
    unfold suffix in Hsuf, Hname |- *.
    destruct (name path) as [|c r] eqn:En; [now elim Hsuf|].
    destruct (from_last_dot r) as [t|] eqn:E; [|now elim Hsuf].
    destruct (Nat.ltb 1 (String.length t)) eqn:Et; [|now elim Hsuf].
    destruct (from_last_dot_tail _ E) as [Hfix [pre Hpre]].
    destruct (stem path) as [|c' st] eqn:Est.
    + simpl in Hname. subst r.
      apply (f_equal String.length) in Hname.
      simpl in Hname. rewrite length_app_string in Hname. lia.
    + cbn [append].
      change (String "." (String "t" (String "m" (String "p" (String "c"
               (String "o" (String "p" (String "y" t))))))))
        with (".tmpcopy" ++ t).
      rewrite <- app_assoc_string, (from_last_dot_app _ Hfix), Et. reflexivity.
Qed.

Lemma temp_copy_name_keeps_suffix_witness :
  suffix (with_name WATCH_FILE (stem WATCH_FILE ++ ".tmpcopy" ++ suffix WATCH_FILE))
  = suffix WATCH_FILE.
Proof.
  apply (proj2 (proj2 (proj2 (temp_copy_name_keeps_suffix WATCH_FILE)))).
  vm_compute. discriminate.
Defined.

End TempCopy.

Section CopyAndRead.

Import Py Watch Spec.
Local Open Scope string_scope.

Variable env : environment.

Lemma count_none f ops : Forall (fun o => f o = false) ops -> count_ops f ops = 0.
Proof.
  unfold count_ops. induction 1 as [|o r Ho _ IH]; simpl; [reflexivity|].
  now rewrite Ho.
Qed.

Lemma copy_loop_step path temp_path more s :
  copy_loop env (S more) path temp_path s
  = if copyfile env (trace s) path temp_path
    then (Return (Some temp_path),
          State (_last_event s) (trace s ++ [CopyFile path temp_path]))
    else copy_loop env more path temp_path
                   (State (_last_event s)
                          ((trace s ++ [CopyFile path temp_path])
                             ++ [Sleep RETRY_DELAY_SECS])).
Proof.
  simpl. unfold bind at 1. unfold perform.
  now destruct (copyfile env (trace s) path temp_path).
Qed.

Lemma copy_loop_outcome path temp_path :
  forall tries s,
    (fst (copy_loop env tries path temp_path s) = Return None
     \/ (fst (copy_loop env tries path temp_path s) = Return (Some temp_path)
         /\ exists pre,
             trace (snd (copy_loop env tries path temp_path s))
             = (pre ++ [CopyFile path temp_path])%list))
    /\ exists ops,
        trace (snd (copy_loop env tries path temp_path s)) = (trace s ++ ops)%list
        /\ count_ops is_copy ops <= tries.
Proof.
  induction tries as [|more IH]; intros s.
  - simpl. split; [now left|]. exists []. split; [now rewrite app_nil_r | reflexivity].
  - rewrite copy_loop_step.
    destruct (copyfile env (trace s) path temp_path); cbn [fst snd trace].
    + split; [right; split; [reflexivity | now exists (trace s)]|].
      exists [CopyFile path temp_path]. split; [reflexivity|].
      change (count_ops is_copy [CopyFile path temp_path]) with 1. lia.
    + destruct (IH (State (_last_event s)
                          ((trace s ++ [CopyFile path temp_path]) ++ [Sleep RETRY_DELAY_SECS])))
        as [Hres (ops & T & C)].
      split; [exact Hres|].
      exists ([CopyFile path temp_path; Sleep RETRY_DELAY_SECS] ++ ops)%list. split.
      * rewrite T. cbn [trace]. now rewrite <- !app_assoc.
      * rewrite count_ops_app.
        change (count_ops is_copy [CopyFile path temp_path; Sleep RETRY_DELAY_SECS]) with 1.
        lia.
Qed.

Lemma adds_wait_until_stable (P : op -> Prop) path :
  P (Stat path) -> P (Sleep (3 # 10)) -> adds P (wait_until_stable env path).
Proof. intros Hstat Hsleep. unfold wait_until_stable. now apply adds_stable_loop. Qed.

Lemma wait_until_stable_returns path s :
  exists b, fst (wait_until_stable env path s) = Return b.
Proof. unfold wait_until_stable. apply stable_loop_returns. Qed.


End CopyAndRead.

Section CopyWitness.

Import Py Watch Spec.
Local Open Scope string_scope.


End CopyWitness.

(** ** Reading the table and sending the first row *)

Section ReadAndSend.

Import Py Watch Spec.
Local Open Scope string_scope.

Variable env : environment.

Lemma copy_to_temp_returns path s : exists r, fst (copy_to_temp env path s) = Return r.
Proof.
  unfold copy_to_temp, bind.
  destruct (wait_until_stable_returns env path s) as [b Hb].
  destruct (wait_until_stable env path s) as [r s1]. simpl in Hb. subst r.
  destruct b; cbn [negb]; [|now exists None].
  destruct (copy_loop_outcome env path
              (with_name path (stem path ++ ".tmpcopy" ++ suffix path)) READ_RETRIES s1)
    as [[H|[H _]] _]; eauto.
Qed.

Lemma parse_adds tmp : adds (parses_only tmp) (parse_copy env tmp).
Proof.
  unfold parse_copy. cbv zeta. destruct (mem _ _).
  - apply adds_bind; [|intros; apply adds_ret].
    unfold pd_read_excel. apply adds_bind; [apply adds_perform; now left|].
    intros [df|]; [apply adds_ret | apply adds_raise].
  - destruct (String.eqb _ _).
    + apply adds_bind; [|intros; apply adds_ret].
      assert (Hcsv : forall mode, adds (parses_only tmp) (pd_read_csv env tmp mode)).
      { intros mode. unfold pd_read_csv.
        apply adds_bind; [apply adds_perform; right; left; now exists mode|].
        intros [df|]; [apply adds_ret | apply adds_raise]. }
      apply adds_try_except; [apply Hcsv | intros; apply Hcsv].
    + apply adds_bind; [|intros; apply adds_ret].
      apply adds_emit. right. right. eauto.
Qed.

Lemma read_table_any_after_copy path s r s1 :
  copy_to_temp env path s = (r, s1) ->
  read_table_any env path s
  = match r with
    | Return (Some tmp) => try_finally (parse_copy env tmp) (unlink_quietly env tmp) s1
    | Return None => (Return None, s1)
    | Raise e => (Raise e, s1)
    end.
Proof.
  intros H. unfold read_table_any. unfold bind at 1. rewrite H.
  now destruct r as [[tmp|]|e].
Qed.


(** X21: a temporary copy whose suffix, lowercased, is none of [.xlsx],
    [.xls] and [.csv] is not parsed at all: the read reports the type,
    removes the copy and returns [None]. *)
Theorem unsupported_type_is_not_parsed :
  forall path s tmp s1,
    copy_to_temp env path s = (Return (Some tmp), s1) ->
    mem (Text.lower (suffix tmp)) [".xlsx"; ".xls"; ".csv"] = false ->
    read_table_any env path s
    = (Return None,
       State (_last_event s1)
             (trace s1 ++ [Print (UnsupportedType (Text.lower (suffix tmp))); Unlink tmp])).
Proof.
  intros path s tmp s1 Hcopy Hsuf. rewrite (read_table_any_after_copy _ _ Hcopy).
  unfold parse_copy. cbv zeta.
  unfold mem in *. cbn [existsb] in *.
  apply orb_false_iff in Hsuf. destruct Hsuf as [H1 Hsuf].
  apply orb_false_iff in Hsuf. destruct Hsuf as [H2 Hsuf].
  apply orb_false_iff in Hsuf. destruct Hsuf as [H3 _].
  rewrite H1, H2, H3. cbn [orb].
  unfold try_finally, print, emit, unlink_quietly, bind, perform, ret.
  cbn [fst snd trace _last_event]. now rewrite <- app_assoc.
Qed.

(** X22: for a [.csv] copy the second parse, with the Python engine, is
    tried exactly when the first one raises, and its outcome is the
    outcome of the read: a table is returned, a failure is raised; the
    copy is removed in every case. *)
Theorem csv_falls_back_to_python_engine :
  forall path s tmp s1,
    copy_to_temp env path s = (Return (Some tmp), s1) ->
    Text.lower (suffix tmp) = ".csv" ->
    let first := read_csv env (trace s1) tmp Utf8Ignore in
    let second := read_csv env (trace s1 ++ [ReadCsv tmp Utf8Ignore]) tmp PythonEngine in
    read_table_any env path s
    = match first, second with
      | Some df, _ =>
          (Return (Some df),
           State (_last_event s1) (trace s1 ++ [ReadCsv tmp Utf8Ignore; Unlink tmp]))
      | None, Some df =>
          (Return (Some df),
           State (_last_event s1)
                 (trace s1 ++ [ReadCsv tmp Utf8Ignore; ReadCsv tmp PythonEngine; Unlink tmp]))
      | None, None =>
          (Raise (DecodeError tmp),
           State (_last_event s1)
                 (trace s1 ++ [ReadCsv tmp Utf8Ignore; ReadCsv tmp PythonEngine; Unlink tmp]))
      end.
Proof.
  intros path s tmp s1 Hcopy Hsuf first second. subst first second.
  rewrite (read_table_any_after_copy _ _ Hcopy).
  unfold parse_copy. rewrite Hsuf. cbv zeta.
  cbn [mem existsb String.eqb Ascii.eqb Bool.eqb orb].
  unfold try_finally, try_except, pd_read_csv, unlink_quietly, bind, perform, ret, raise.
  cbn [fst snd trace _last_event].
  destruct (read_csv env (trace s1) tmp Utf8Ignore) as [df|];
    cbn [fst snd trace _last_event].
  - now rewrite <- app_assoc.
  - destruct (read_csv env (trace s1 ++ [ReadCsv tmp Utf8Ignore]) tmp PythonEngine);
      cbn [fst snd trace _last_event]; now rewrite <- !app_assoc.
Qed.

Lemma send_first_row_run df s :
  exists prints,
    send_first_row env df s
    = (Return tt,
       State (_last_event s)
             (trace s
                ++ (if empty df then []
                    else [Post API_URL
                               (MkPayload "excel-desktop" "Sheet1" 0 (columns df)
                                  (map (fun c => match c with None => "" | Some t => t end)
                                       (hd [] (rows df))))])
                ++ prints))
    /\ Forall (fun o => exists m, o = Print m) prints.
Proof.
  unfold send_first_row. destruct (empty df).
  - exists [Print NoRows]. split; [reflexivity | repeat constructor; eauto].
  - unfold bind at 1. unfold perform.
    destruct (post env (trace s) API_URL _) as [status text json_ok|].
    + unfold bind, print, emit.
      destruct (400 <=? status)%Z; [|destruct json_ok];
        cbn [fst snd trace _last_event]; rewrite <- ?app_assoc;
        eexists; (split; [reflexivity | repeat constructor; eauto]).
    + unfold print, emit. cbn [fst snd trace _last_event]. rewrite <- ?app_assoc.
      eexists; (split; [reflexivity | repeat constructor; eauto]).
Qed.


End ReadAndSend.

Section ReadWitnesses.

Import Py Watch Spec.
Local Open Scope string_scope.

Lemma unsupported_type_is_not_parsed_witness :
  let env := Env (fun _ _ => Some 10%Z) (fun _ _ _ => true) (fun _ _ => None)
                 (fun _ _ _ => None) (fun _ _ => true) (fun _ _ _ => PostFailed) in
  let notes := MkPath "C:\data" "notes.TXT" in
  let tmp := MkPath "C:\data" "notes.tmpcopy.TXT" in
  let s1 := snd (copy_to_temp env notes (State 0 [])) in
  read_table_any env notes (State 0 [])
  = (Return None,
     State (_last_event s1) (trace s1 ++ [Print (UnsupportedType ".txt"); Unlink tmp])).
Proof.
  intros env notes tmp s1.
  apply (@unsupported_type_is_not_parsed env notes (State 0 []) tmp s1).
  - vm_compute. reflexivity.
  - vm_compute. reflexivity.
Defined.

Lemma csv_falls_back_to_python_engine_witness :
  let table := Frame ["Email"] [[Some "a@b.com"]] in
  let env := Env (fun _ _ => Some 10%Z) (fun _ _ _ => true) (fun _ _ => None)
                 (fun _ _ mode => match mode with Utf8Ignore => None | PythonEngine => Some table end)
                 (fun _ _ => true) (fun _ _ _ => PostFailed) in
  let tmp := MkPath (parent WATCH_FILE) "sample_contacts.tmpcopy.csv" in
  let s1 := snd (copy_to_temp env WATCH_FILE (State 0 [])) in
  read_table_any env WATCH_FILE (State 0 [])
  = (Return (Some table),
     State (_last_event s1)
           (trace s1 ++ [ReadCsv tmp Utf8Ignore; ReadCsv tmp PythonEngine; Unlink tmp])).
Proof.
  intros table env tmp s1.
  apply (@csv_falls_back_to_python_engine env WATCH_FILE (State 0 []) tmp s1).
  - vm_compute. reflexivity.
  - vm_compute. reflexivity.
Defined.

End ReadWitnesses.

(** ** One change, at most one POST *)

Section ChangePosts.

Import Py Watch Spec.
Local Open Scope string_scope.

Variable env : environment.

Lemma adds_weaken (P Q : op -> Prop) (A : Type) (c : W A) :
  (forall o, P o -> Q o) -> adds P c -> adds Q c.
Proof.
  intros HPQ Hc s. destruct (Hc s) as [L (ops & T & F)]. split; [exact L|].
  exists ops. split; [exact T|]. eapply Forall_impl; [|exact F]. exact HPQ.
Qed.

Lemma parses_only_no_post tmp o : parses_only tmp o -> is_post o = false.
Proof. intros [->|[[mode ->]|[suf ->]]]; reflexivity. Qed.

Lemma read_table_any_no_post path :
  adds (fun o => is_post o = false) (read_table_any env path).
Proof.
  unfold read_table_any. apply adds_bind.
  - unfold copy_to_temp. apply adds_bind.
    + now apply adds_wait_until_stable.
    + intros [|]; cbn [negb]; [now apply adds_copy_loop | apply adds_ret].
  - intros [tmp|]; [|apply adds_ret].
    apply adds_try_finally.
    + apply (@adds_weaken (parses_only tmp));
        [apply parses_only_no_post | exact (parse_adds env tmp)].
    + unfold unlink_quietly. apply adds_bind; [now apply adds_perform|].
      intros; apply adds_ret.
Qed.

Lemma prints_no_post prints :
  Forall (fun o => exists m, o = Print m) prints -> count_ops is_post prints = 0.
Proof.
  intros H. apply count_none. eapply Forall_impl; [|exact H].
  now intros o [m ->].
Qed.

(** X24: one call of the change handler sends at most one POST; it sends
    none when the call is dropped by the debounce and none when it raises:
    a table that cannot be decoded is never followed by a POST. *)
Theorem handle_change_posts_at_most_once :
  forall now path s,
    let run := handle_change env now path s in
    exists ops,
      trace (snd run) = (trace s ++ ops)%list
      /\ count_ops is_post ops <= 1
      /\ (forall e, fst run = Raise e -> count_ops is_post ops = 0)
      /\ ((now - _last_event s < DEBOUNCE_SECS)%Q -> ops = []).
Proof.
  intros now path s run. subst run.
  destruct (Qltb (now - _last_event s) DEBOUNCE_SECS) eqn:Hgate.
  - rewrite (handle_change_dropped env now path s Hgate). exists [].
    cbn [fst snd]. split; [now rewrite app_nil_r|]. split; [auto|].
    split; [discriminate | reflexivity].
  - set (s0 := State now (trace s ++ [Print (ChangeDetected path)])).
    assert (Hrun : handle_change env now path s
                   = bind (read_table_any env path)
                          (fun df => match df with
                                     | None => print CouldNotRead
                                     | Some df => send_first_row env df
                                     end) s0).
    { unfold handle_change. now rewrite Hgate. }
    rewrite Hrun. clear Hrun. unfold bind.
    destruct (read_table_any_no_post path s0) as [_ (ops1 & T1 & F1)].
    apply count_none in F1.
    assert (Hopen : ~ (now - _last_event s < DEBOUNCE_SECS)%Q).
    { intros Hlt. apply Qltb_lt in Hlt. congruence. }
    destruct (read_table_any env path s0) as [[[df|]|e] s2]; cbn [snd] in T1.
    + destruct (send_first_row_run env df s2) as (prints & -> & Hprints).
      apply prints_no_post in Hprints. cbn [fst snd trace].
      rewrite T1. subst s0. cbn [trace]. rewrite <- ?app_assoc.
      eexists. split; [reflexivity|].
      rewrite !count_ops_app, F1, Hprints.
      split; [destruct (empty df); unfold count_ops; simpl; lia|].
      split; [discriminate | intros Hlt; now elim Hopen].
    + unfold print, emit. cbn [fst snd trace].
      rewrite T1. subst s0. cbn [trace]. rewrite <- ?app_assoc.
      eexists. split; [reflexivity|].
      rewrite !count_ops_app, F1.
      split; [unfold count_ops; simpl; lia|]. split; [discriminate | intros Hlt; now elim Hopen].
    + cbn [fst snd].
      rewrite T1. subst s0. cbn [trace]. rewrite <- ?app_assoc.
      eexists. split; [reflexivity|].
      rewrite !count_ops_app, F1.
      split; [unfold count_ops; simpl; lia|]. split; [intros; unfold count_ops; simpl; lia | intros Hlt; now elim Hopen].
Qed.

End ChangePosts.

Section ChangePostsWitness.

Import Py Watch Spec.
Local Open Scope string_scope.

Lemma handle_change_posts_at_most_once_witness :
  let env := Env (fun _ _ => Some 10%Z) (fun _ _ _ => true) (fun _ _ => None)
                 (fun _ _ _ => None) (fun _ _ => true)
                 (fun _ _ _ => PostReplied 200 "" true) in
  exists ops,
    trace (snd (handle_change env (1 # 2) WATCH_FILE (State 0 []))) = ([] ++ ops)%list
    /\ ops = [].
Proof.
  intros env.
  destruct (handle_change_posts_at_most_once env (1 # 2)%Q WATCH_FILE (State 0 []))
    as (ops & T & _ & _ & Hdrop).
  exists ops. split; [exact T|]. apply Hdrop. reflexivity.
Defined.

End ChangePostsWitness.
